(** * Thumbnail generator (main.py): a shallow embedding and its properties

    The development follows the layout of [main.py]: Python strings and the
    [str] methods the program calls, floats, the [DesignSystem] tables, and
    then the methods of [ThumbnailGenerator] ([is_color_dark], [clean_title],
    [create_gradient_background], [wrap_text], [generate_thumbnail]).
    Definitions come first; the lemmas about them follow. *)

From Stdlib Require Import ZArith NArith List Bool Lia Ascii String Floats Uint63.
From stdpp Require Import gmap strings list.
Import ListNotations.

(* ===================================================================== *)
(** * Part I: definitions                                                 *)
(* ===================================================================== *)

(** ** Python strings

    A Python [str] is a sequence of Unicode code points.  A code point is a
    number; literals of the program are written as Rocq strings and read
    through [lit] (declared as a coercion). *)

Definition char := N.
Definition str := list char.

Definition lit (s : string) : str := List.map N_of_ascii (list_ascii_of_string s).
Coercion lit : string >-> str.
Arguments lit : simpl never.

(** Truth value of a string: [if s:] holds for the non-empty ones. *)
Definition truthy (s : str) : bool :=
  match s with [] => false | _ :: _ => true end.

(** [str.isspace] on one code point: the set CPython's [str.strip()] and
    [str.split()] use (tab .. carriage return, the four separators 0x1c-0x1f,
    space, NEL, NBSP and the Unicode space separators). *)
Definition isspace (c : char) : bool :=
  ((9 <=? c) && (c <=? 13) || (28 <=? c) && (c <=? 32) || (c =? 133) || (c =? 160)
   || (c =? 5760) || (8192 <=? c) && (c <=? 8202) || (c =? 8232) || (c =? 8233)
   || (c =? 8239) || (c =? 8287) || (c =? 12288))%N.

(** [s.lstrip()], [s.rstrip()] and [s.strip()]. *)
Fixpoint str_lstrip (s : str) : str :=
  match s with
  | [] => []
  | c :: s' => if isspace c then str_lstrip s' else s
  end.

Fixpoint str_rstrip (s : str) : str :=
  match s with
  | [] => []
  | c :: s' =>
      match str_rstrip s' with
      | [] => if isspace c then [] else [c]
      | r => c :: r
      end
  end.

Definition str_strip (s : str) : str := str_rstrip (str_lstrip s).

(** [s.startswith(p)]. *)
Fixpoint starts_with (p s : str) : bool :=
  match p, s with
  | [], _ => true
  | _ :: _, [] => false
  | a :: p', b :: s' => (a =? b)%N && starts_with p' s'
  end.

(** [sub in s]. *)
Fixpoint str_contains (sub s : str) : bool :=
  starts_with sub s
  || match s with [] => false | _ :: s' => str_contains sub s' end.

(** [s.replace(old, new)]: the occurrences of [old] are found left to right
    and do not overlap.  [skip] counts the characters of a matched
    occurrence that are still to be passed over. *)
Fixpoint replace_go (old new : str) (skip : nat) (s : str) : str :=
  match s with
  | [] => []
  | c :: s' =>
      match skip with
      | S k => replace_go old new k s'
      | O =>
          if starts_with old s
          then new ++ replace_go old new (length old - 1) s'
          else c :: replace_go old new 0 s'
      end
  end.

Definition str_replace (old new s : str) : str :=
  match old with
  | [] => new ++ flat_map (fun c => c :: new) s
  | _ :: _ => replace_go old new 0 s
  end.

(** [s.split(sep)] for a non-empty separator (the program's only separator
    is the literal [" - "]; Python refuses an empty one). *)
Fixpoint split_go (sep : str) (skip : nat) (s : str) : list str :=
  match s with
  | [] => [[]]
  | c :: s' =>
      match skip with
      | S k => split_go sep k s'
      | O =>
          if starts_with sep s
          then [] :: split_go sep (length sep - 1) s'
          else match split_go sep 0 s' with
               | p :: ps => (c :: p) :: ps
               | [] => [[c]]
               end
      end
  end.

Definition str_split_on (sep s : str) : list str := split_go sep 0 s.

(** [s.split()]: the maximal runs of non-space characters. *)
Fixpoint str_split (s : str) : list str :=
  match s with
  | [] => []
  | c :: s' =>
      if isspace c then str_split s'
      else match s' with
           | [] => [[c]]
           | d :: _ =>
               if isspace d then [c] :: str_split s'
               else match str_split s' with
                    | w :: ws => (c :: w) :: ws
                    | [] => [[c]]
                    end
           end
  end.

(** A text whose white space is single spaces (U+0020), each followed by a
    character that is not white space. *)
Fixpoint single_spaced (s : str) : bool :=
  match s with
  | [] => true
  | c :: s' =>
      (if isspace c
       then (c =? 32)%N
            && match s' with [] => false | d :: _ => negb (isspace d) end
       else true)
      && single_spaced s'
  end.

(** [sep.join(l)]. *)
Fixpoint str_join (sep : str) (l : list str) : str :=
  match l with
  | [] => []
  | [x] => x
  | x :: l' => x ++ sep ++ str_join sep l'
  end.

(** The two case mappings the program calls ([str.title], [str.upper]) are
    Unicode tables; they are left uninterpreted. *)
Class UnicodeCase := {
  str_title : str -> str;
  str_upper : str -> str
}.

(** ** Control flow of a function body

    A statement either returns a value or falls through to the next one. *)
Inductive flow (A : Type) : Type :=
  | Returned (a : A)
  | Fallthrough.
Arguments Returned {A} a.
Arguments Fallthrough {A}.

Definition and_then {A} (s1 s2 : flow A) : flow A :=
  match s1 with
  | Returned a => Returned a
  | Fallthrough => s2
  end.
Notation "s1 ;;; s2" := (and_then s1 s2) (at level 65, right associativity).

(** ** [ThumbnailGenerator.clean_title] *)

Definition clean_title `{UnicodeCase} (prompt : str) : flow str :=
  let text := str_strip (str_replace "- Intimation" "" prompt) in
  (if str_contains "Listing Obligations" text
   then Returned (lit "Important Update") else Fallthrough) ;;;
  Returned (str_strip text) ;;;
  Returned (str_title text).

(** ** Python numbers

    An [int] is a [Z].  A [float] is an IEEE 754 binary64 number: the
    kernel's primitive floats, whose literals are read to the nearest
    binary64 value as Python reads them. *)

(** [float(z)], as the arithmetic operators do it when one operand is an
    [int] and the other a [float]; faithful for [|z| < 2^63]. *)
Definition float_of_int (z : Z) : float :=
  match z with
  | Z0 => 0%float
  | Zpos _ => PrimFloat.of_uint63 (Uint63.of_Z z)
  | Zneg p => PrimFloat.opp (PrimFloat.of_uint63 (Uint63.of_Z (Zpos p)))
  end.

(** [a / b] on two [int]s: [ZeroDivisionError] is [None]; the quotient is
    the correctly rounded one (for operands below [2^53] in magnitude, the
    binary64 quotient of the two converted operands). *)
Definition int_truediv (a b : Z) : option float :=
  if (b =? 0)%Z then None else Some (float_of_int a / float_of_int b)%float.

(** [x / y] on two [float]s. *)
Definition float_truediv (x y : float) : option float :=
  if PrimFloat.eqb y 0%float then None else Some (x / y)%float.

(** [int(f)]: truncation toward zero; [None] for an infinity or a NaN,
    on which Python raises. *)
Definition int_of_float (f : float) : option Z :=
  match Prim2SF f with
  | S754_zero _ => Some 0%Z
  | S754_finite s m e =>
      let a := match e with
               | Z0 => Zpos m
               | Zpos p => (Zpos m * 2 ^ Zpos p)%Z
               | Zneg p => (Zpos m / 2 ^ Zpos p)%Z
               end in
      Some (if s then (- a)%Z else a)
  | S754_infinity _ | S754_nan => None
  end.

(** [min(a, b)] on floats: the first argument unless the second is smaller. *)
Definition float_min (a b : float) : float :=
  if PrimFloat.ltb b a then b else a.

(** [range(n)]. *)
Definition py_range (n : Z) : list Z := List.map Z.of_nat (seq 0 (Z.to_nat n)).

(** A [for] loop whose body may raise: the first [None] ends it. *)
Fixpoint for_each {A S : Type} (body : S -> A -> option S) (l : list A) (s : S)
  : option S :=
  match l with
  | [] => Some s
  | a :: l' => match body s a with
               | Some s' => for_each body l' s'
               | None => None
               end
  end.

(** ** Binary64 results, read in integers

    Every operation on [float] rounds a rational to 53 significant bits.
    [rne a b] is [a / b] rounded to the nearest integer, ties to even;
    [RN N D] is [N / D], at least [2^52], rounded to 53 significant bits.
    [fval f] is the value of a positive [f] in units of [2^-1074], and
    [fnormal f lo hi] says that [f] is a positive normal number whose
    exponent lies between [lo] and [hi]. *)

Definition loc_of (a b : Z) : location :=
  (if a mod b =? 0 then loc_Exact else loc_Inexact (2 * (a mod b) ?= b))%Z.

Definition bracket (a b : Z) : shr_record :=
  shr_record_of_loc (a / b)%Z (loc_of a b).

Definition rne (a b : Z) : Z := round_nearest_even (a / b)%Z (loc_of a b).

Definition RN (N D : Z) : Z :=
  (let t := Zdigits2 (N / D) - 53 in rne N (D * 2 ^ t) * 2 ^ t)%Z.

Definition sval (f : spec_float) : Z :=
  match f with
  | S754_finite false m e => (Z.pos m * 2 ^ (e + 1074))%Z
  | _ => 0%Z
  end.

Definition pnormal (f : spec_float) (lo hi : Z) : Prop :=
  exists m e, f = S754_finite false m e
              /\ (2 ^ 52 <= Z.pos m < 2 ^ 53)%Z /\ (lo <= e <= hi)%Z.

Definition fval (f : float) : Z := sval (Prim2SF f).

Definition fnormal (f : float) (lo hi : Z) : Prop := pnormal (Prim2SF f) lo hi.

(** ** [Config] *)

Record Config := {
  canvas_width : Z;
  canvas_height : Z;
  file_expiry_hours : Z
}.

Definition config : Config :=
  {| canvas_width := 1200; canvas_height := 675; file_expiry_hours := 3 |}.

(** ** [DesignSystem] *)

Definition rgb : Type := Z * Z * Z.

Record typography := {
  title_size : Z;
  subtitle_size : Z;
  spacing : Z
}.

Record layout := {
  logo_area_ratio : float;
  padding : Z;
  logo_max_ratio : float
}.

(** The value of one preset in [GRADIENTS]: a dict with the keys ["dark"]
    and ["light"]. *)
Definition tones (dark light : list (rgb * rgb)) : gmap str (list (rgb * rgb)) :=
  <[ lit "dark" := dark ]> (<[ lit "light" := light ]> ∅).

Definition GRADIENTS : gmap str (gmap str (list (rgb * rgb))) :=
  (<[ lit "modern" :=
       tones [ ((15, 23, 42), (30, 41, 59));
               ((31, 41, 55), (51, 65, 85));
               ((17, 24, 39), (31, 41, 55));
               ((22, 30, 46), (37, 50, 72)) ]
             [ ((248, 250, 252), (241, 245, 249));
               ((254, 252, 232), (252, 211, 77));
               ((236, 253, 245), (167, 243, 208));
               ((245, 243, 255), (196, 181, 253)) ] ]>
  (<[ lit "corporate" :=
       tones [ ((30, 58, 138), (29, 78, 216));
               ((91, 33, 182), (124, 58, 237));
               ((6, 78, 59), (5, 150, 105));
               ((153, 27, 27), (220, 38, 38)) ]
             [ ((255, 255, 255), (249, 250, 251));
               ((249, 250, 251), (243, 244, 246));
               ((240, 249, 255), (219, 234, 254));
               ((247, 254, 231), (220, 252, 231)) ] ]>
  (<[ lit "vibrant" :=
       tones [ ((147, 51, 234), (79, 70, 229));
               ((236, 72, 153), (147, 51, 234));
               ((34, 197, 94), (20, 184, 166));
               ((251, 113, 133), (244, 63, 94)) ]
             [ ((254, 240, 138), (251, 191, 36));
               ((165, 243, 252), (34, 211, 238));
               ((254, 205, 211), (251, 113, 133));
               ((196, 181, 253), (139, 92, 246)) ] ]> ∅)))%Z.

Definition TYPOGRAPHY : gmap str typography :=
  <[ lit "modern" := {| title_size := 72; subtitle_size := 40; spacing := 15 |} ]>
 (<[ lit "corporate" := {| title_size := 68; subtitle_size := 38; spacing := 12 |} ]>
 (<[ lit "vibrant" := {| title_size := 76; subtitle_size := 42; spacing := 18 |} ]> ∅)).

#[local] Set Warnings "-inexact-float".
Definition LAYOUTS : gmap str layout :=
  <[ lit "modern" :=
       {| logo_area_ratio := 0.35; padding := 50; logo_max_ratio := 0.7 |} ]>
 (<[ lit "corporate" :=
       {| logo_area_ratio := 0.30; padding := 40; logo_max_ratio := 0.6 |} ]>
 (<[ lit "vibrant" :=
       {| logo_area_ratio := 0.40; padding := 60; logo_max_ratio := 0.8 |} ]> ∅)).

(** ** [ThumbnailGenerator.is_color_dark] *)

Definition brightness (rgb_tuple : rgb) : float :=
  let '(r, g, b) := rgb_tuple in
  (0.299 * float_of_int r + 0.587 * float_of_int g + 0.114 * float_of_int b)%float.

Definition is_color_dark (rgb_tuple : rgb) : bool :=
  PrimFloat.ltb (brightness rgb_tuple) 127.5%float.

(** The exact luminance, times 1000: an integer. *)
Definition luma1000 (rgb_tuple : rgb) : Z :=
  let '(r, g, b) := rgb_tuple in (299 * r + 587 * g + 114 * b)%Z.

(** A check of [is_color_dark] against the exact luminance on every colour
    of eight bits a channel.  The terms of the two sums are tabulated once:
    for a weight, the exact term and the computed one of each level. *)
Definition luma_terms (k : Z) (c : float) : list (Z * float) :=
  List.map (fun v => ((k * v)%Z, (c * float_of_int v)%float)) (py_range 256).

Definition luma_check_b (s : float) (e : Z) (tb : Z * float) : bool :=
  match (e + fst tb ?= 127500)%Z with
  | Eq => true
  | Lt => PrimFloat.ltb (s + snd tb)%float 127.5%float
  | Gt => negb (PrimFloat.ltb (s + snd tb)%float 127.5%float)
  end.

Definition luma_check_g (bs : list (Z * float)) (fr : float) (er : Z)
    (tg : Z * float) : bool :=
  forallb (luma_check_b (fr + snd tg)%float (er + fst tg)%Z) bs.

Definition luma_check_r (gs bs : list (Z * float)) (tr : Z * float) : bool :=
  forallb (luma_check_g bs (snd tr) (fst tr)) gs.

Definition luma_check : bool :=
  forallb (luma_check_r (luma_terms 587 0.587%float) (luma_terms 114 0.114%float))
          (luma_terms 299 0.299%float).
#[local] Set Warnings "+inexact-float".

(** ** [ThumbnailGenerator.create_gradient_background]

    An image is its size and its pixels; only the coordinates inside the
    size are pixels of the image. *)

Record image := {
  img_width : Z;
  img_height : Z;
  img_pixel : Z -> Z -> rgb
}.

(** [Image.new("RGB", (w, h))]: a black canvas. *)
Definition image_new (w h : Z) : image :=
  {| img_width := w; img_height := h; img_pixel := fun _ _ => (0, 0, 0)%Z |}.

(** Pillow stores a channel in eight bits: the ink of a drawing call is
    clipped to 0 .. 255. *)
Definition clip8 (v : Z) : Z := Z.max 0 (Z.min 255 v).
Definition ink (c : rgb) : rgb :=
  let '(r, g, b) := c in (clip8 r, clip8 g, clip8 b).

(** [draw.point((x, y), c)]. *)
Definition draw_point (img : image) (x y : Z) (c : rgb) : image :=
  {| img_width := img_width img;
     img_height := img_height img;
     img_pixel := fun x' y' =>
       if ((x' =? x) && (y' =? y))%Z then ink c else img_pixel img x' y' |}.

(** [draw.line([(x0, y), (x1, y)], fill=c)]: a horizontal line, both ends
    included. *)
Definition draw_hline (img : image) (x0 x1 y : Z) (c : rgb) : image :=
  {| img_width := img_width img;
     img_height := img_height img;
     img_pixel := fun x' y' =>
       if ((y' =? y) && (x0 <=? x') && (x' <=? x1))%Z then ink c
       else img_pixel img x' y' |}.

(** One channel: [int(start + (end - start) * ratio)]. *)
Definition interpolate (start_c end_c : Z) (ratio : float) : option Z :=
  int_of_float (float_of_int start_c + float_of_int (end_c - start_c) * ratio)%float.

Definition interpolate_color (start_color end_color : rgb) (ratio : float)
  : option rgb :=
  let '(r0, g0, b0) := start_color in
  let '(r1, g1, b1) := end_color in
  r ← interpolate r0 r1 ratio;
  g ← interpolate g0 g1 ratio;
  b ← interpolate b0 b1 ratio;
  Some (r, g, b).

(** The colour of scanline [y] of a linear gradient on [height] rows. *)
Definition linear_color (start_color end_color : rgb) (height y : Z) : option rgb :=
  ratio ← int_truediv y height;
  interpolate_color start_color end_color ratio.

Definition linear_row (start_color end_color : rgb) (img : image) (y : Z)
  : option image :=
  c ← linear_color start_color end_color (img_height img) y;
  Some (draw_hline img 0 (img_width img) y c).

(** [math.sqrt] of an [int]. *)
Definition sqrt_int (z : Z) : float := PrimFloat.sqrt (float_of_int z).

Definition radial_point (start_color end_color : rgb) (center_x center_y : Z)
    (max_radius : float) (y : Z) (img : image) (x : Z) : option image :=
  let distance := sqrt_int ((x - center_x) ^ 2 + (y - center_y) ^ 2) in
  q ← float_truediv distance max_radius;
  c ← interpolate_color start_color end_color (float_min q 1%float);
  Some (draw_point img x y c).

Definition create_gradient_background (img : image) (start_color end_color : rgb)
    (style : str) : option image :=
  let width := img_width img in
  let height := img_height img in
  if decide (style = lit "radial") then
    let center_x := (width / 2)%Z in
    let center_y := (height / 2)%Z in
    let max_radius := sqrt_int (center_x ^ 2 + center_y ^ 2) in
    for_each (fun img y =>
                for_each (radial_point start_color end_color center_x center_y
                                       max_radius y)
                         (py_range width) img)
             (py_range height) img
  else
    for_each (linear_row start_color end_color) (py_range height) img.

(** The grey of level [v]. *)
Definition grey (v : Z) : rgb := (v, v, v).

(** The level of scanline [y] of the gradient from black to white on [H]
    rows, in units of [2^-1074]: the quotient [y / H] rounded, times 255,
    rounded. *)
Definition unit_1074 : Z := (2 ^ 1074)%Z.

Definition ramp_value (H y : Z) : Z :=
  RN (255 * RN (y * unit_1074) H) 1%Z.

(** [255 * (k / 255)] is not below [k] in binary64; in units of [2^-60]. *)
Definition ramp_exact_ok (k : Z) : bool :=
  (k * 2 ^ 60 <=? RN (255 * RN (k * 2 ^ 60) 255) 1)%Z.

(** ** [ThumbnailGenerator.wrap_text]

    A font is whatever [draw.textbbox((0, 0), s, font=font)] can measure;
    [textbbox_right] is the third component of the box, the only one the
    method reads. *)

Class FontMetrics (Font : Type) := textbbox_right : Font -> str -> Z.

(** One turn of the loop over the words; the state is [lines] and
    [current_line]. *)
Definition wrap_word {Font} `{FontMetrics Font} (font : Font) (max_width : Z)
    (st : list str * str) (word : str) : list str * str :=
  let '(lines, current_line) := st in
  let test_line :=
    if truthy current_line then current_line ++ lit " " ++ word else word in
  if (textbbox_right font test_line <=? max_width)%Z
  then (lines, test_line)
  else ((if truthy current_line then lines ++ [current_line] else lines), word).

(** The loop over the words, then the last line. *)
Definition wrap_words {Font} `{FontMetrics Font} (font : Font) (max_width : Z)
    (lines : list str) (words : list str) : list str :=
  let '(lines, current_line) :=
    fold_left (wrap_word font max_width) words (lines, []) in
  if truthy current_line then lines ++ [current_line] else lines.

(** One turn of the loop over the parts of a text with manual breaks. *)
Definition wrap_part {Font} `{FontMetrics Font} (font : Font) (max_width : Z)
    (lines : list str) (part : str) : list str :=
  let part := str_strip part in
  if truthy part then
    if (textbbox_right font part <=? max_width)%Z
    then lines ++ [part]
    else wrap_words font max_width lines (str_split part)
  else lines.

Definition wrap_text {Font} `{FontMetrics Font} (text : str) (font : Font)
    (max_width : Z) : list str :=
  if str_contains " - " text
  then fold_left (wrap_part font max_width) (str_split_on " - " text) []
  else wrap_words font max_width [] (str_split text).


(** ** The clock, [strftime] and [uuid]

    [datetime.now()] and [uuid.uuid4()] read the world; what they return is
    an input of the model. *)

Record datetime := {
  dt_year : Z;
  dt_month : Z;
  dt_day : Z;
  dt_hour : Z;
  dt_minute : Z;
  dt_second : Z
}.


Definition digit_char (d : Z) : char := Z.to_N (48 + d).

Fixpoint decimal_go (fuel : nat) (n : Z) (acc : str) : str :=
  match fuel with
  | O => acc
  | S fuel' =>
      let acc' := digit_char (n mod 10) :: acc in
      if (n <? 10)%Z then acc' else decimal_go fuel' (n / 10) acc'
  end.

(** The decimal numeral of [n >= 0]. *)
Definition decimal (n : Z) : str := decimal_go (S (Z.to_nat (Z.log2 n))) n [].

(** Zero padding on the left, as the two-digit fields of [strftime] have. *)
Definition zero_pad (width : nat) (s : str) : str :=
  repeat 48%N (width - length s) ++ s.

(** [d.strftime('%Y%m%d_%H%M%S')]. *)
Definition strftime_Ymd_HMS (d : datetime) : str :=
  decimal (dt_year d) ++ zero_pad 2 (decimal (dt_month d))
  ++ zero_pad 2 (decimal (dt_day d)) ++ lit "_"
  ++ zero_pad 2 (decimal (dt_hour d)) ++ zero_pad 2 (decimal (dt_minute d))
  ++ zero_pad 2 (decimal (dt_second d)).

Definition hex_char (d : N) : char := (if d <? 10 then 48 + d else 87 + d)%N.

(** ['%032x' % u]. *)
Definition hex32 (u : N) : str :=
  List.map (fun i => hex_char ((u / 16 ^ (31 - N.of_nat i)) mod 16)%N) (seq 0 32).

(** [str(uuid)]: the 32 hexadecimal digits in groups of 8-4-4-4-12. *)
Definition uuid_str (u : N) : str :=
  let h := hex32 u in
  take 8 h ++ lit "-" ++ take 4 (drop 8 h) ++ lit "-" ++ take 4 (drop 12 h)
  ++ lit "-" ++ take 4 (drop 16 h) ++ lit "-" ++ drop 20 h.

(** [uuid.uuid4()] from its 128 random bits: the variant and version bits
    are set. *)
Definition uuid4 (random_bits : N) : N :=
  N.lor (N.ldiff (N.lor (N.ldiff random_bits (N.shiftl 0xc000 48))
                        (N.shiftl 0x8000 48))
                 (N.shiftl 0xf000 64))
        (N.shiftl 4 76).

(** ** [ThumbnailGenerator.generate_thumbnail]

    What the method reads from outside the program. *)
Record World (Font : Type) := {
  (** [(config.logo_folder / name).exists()] *)
  logo_file_exists : str -> bool;
  (** [ColorThief(path).get_color(quality=1)]; [None] when it raises *)
  color_thief : str -> option rgb;
  (** the draw of [random.choice([True, False])] *)
  random_tone : bool;
  (** the index [random.choice] draws in a sequence of the given length *)
  random_below : nat -> nat;
  (** whether the Pillow calls on files (logo, brand logo, fonts, save)
      all succeed *)
  pillow_ok : bool;
  (** [ImageFont.truetype(get_font_path(font_family, "bold"), size)] *)
  title_font : option str -> Z -> Font;
  (** [datetime.now()] *)
  now : datetime;
  (** the 128 random bits behind [uuid.uuid4()] *)
  urandom16 : N
}.
Arguments logo_file_exists {Font} _ _.
Arguments color_thief {Font} _ _.
Arguments random_tone {Font} _.
Arguments random_below {Font} _ _.
Arguments pillow_ok {Font} _.
Arguments title_font {Font} _ _ _.
Arguments now {Font} _.
Arguments urandom16 {Font} _.

(** [k in d] for a dict. *)
Definition has_key {V : Type} (d : gmap str V) (k : str) : bool :=
  bool_decide (is_Some (d !! k)).

(** [random.choice(l)]: [IndexError] on an empty sequence is [None]. *)
Definition random_choice {Font A} (w : World Font) (l : list A) : option A :=
  l !! (random_below w (length l) mod length l)%nat.

(** [ThumbnailGenerator.get_dominant_color]. *)
Definition get_dominant_color {Font} (w : World Font) (logo : str) : rgb :=
  default (128, 128, 128)%Z (color_thief w logo).

(** The logo file: [{TICKER}.NSE.png], else the first of the four other
    extensions that exists. *)
Definition find_logo `{UnicodeCase} {Font} (w : World Font) (ticker : str)
  : option str :=
  let name := str_upper ticker in
  if logo_file_exists w (name ++ lit ".NSE.png") then Some (name ++ lit ".NSE.png")
  else List.find (logo_file_exists w)
         (List.map (fun ext : str => name ++ ext)
                   [lit ".png"; lit ".jpg"; lit ".jpeg"; lit ".svg"]).

(** The text area: its left edge and its width. *)
Definition text_area (logo_exists : bool) (l : layout) : option (Z * Z) :=
  if logo_exists then
    logo_area_width ←
      int_of_float (float_of_int (canvas_width config) * logo_area_ratio l)%float;
    logo_max_size ←
      int_of_float (float_of_int logo_area_width * logo_max_ratio l)%float;
    let padding := padding l in
    let text_area_x := (logo_area_width + padding)%Z in
    Some (text_area_x, (canvas_width config - text_area_x - padding)%Z)
  else
    let padding := (padding l * 2)%Z in
    Some (padding, (canvas_width config - padding * 2)%Z).

(** What a call decides: the design of the picture and the file name it
    returns.  Pillow's compositing of the logos and the text is not part of
    the model. *)
Record thumbnail := {
  th_style_preset : str;
  th_typography : typography;
  th_layout : layout;
  th_logo : option str;
  th_use_dark_bg : bool;
  th_gradient_type : str;
  th_gradient : rgb * rgb;
  th_gradient_style : str;
  th_canvas : image;
  th_text_color : str;
  th_subtitle_color : str;
  th_brand_logo : str;
  th_text_area : Z * Z;
  th_headline : str;
  th_lines : list str;
  th_line_height : Z;
  th_filename : str
}.

Definition generate_thumbnail `{UnicodeCase} {Font} `{FontMetrics Font}
    (w : World Font) (ticker stock_name prompt : str) (font_family : option str)
    (style_preset : str) : option thumbnail :=
  let style_preset :=
    if has_key GRADIENTS style_preset then style_preset else lit "modern" in
  let logo := find_logo w ticker in
  typography ← (TYPOGRAPHY !! style_preset : option typography);
  layout ← (LAYOUTS !! style_preset : option layout);
  let use_dark_bg :=
    match logo with
    | Some logo_path => negb (is_color_dark (get_dominant_color w logo_path))
    | None => random_tone w
    end in
  let gradient_type := if use_dark_bg then lit "dark" else lit "light" in
  by_tone ← (GRADIENTS !! style_preset : option (gmap str (list (rgb * rgb))));
  pairs ← (by_tone !! gradient_type : option (list (rgb * rgb)));
  bg ← random_choice w pairs;
  let text_color := if use_dark_bg then lit "#FFFFFF" else lit "#1F2937" in
  let subtitle_color := if use_dark_bg then lit "#D1D5DB" else lit "#6B7280" in
  let gradient_style :=
    if decide (style_preset = lit "vibrant") then lit "radial" else lit "linear" in
  img ← create_gradient_background
           (image_new (canvas_width config) (canvas_height config))
           (fst bg) (snd bg) gradient_style;
  area ← text_area (bool_decide (is_Some logo)) layout;
  let brand_logo_suffix := if use_dark_bg then lit "WHITE" else lit "BLACK" in
  if pillow_ok w then
    let font_title := title_font w font_family (title_size typography) in
    headline ← match clean_title prompt with
               | Returned h => Some h
               | Fallthrough => None
               end;
    let lines := wrap_text headline font_title (snd area) in
    let unique_id := take 8 (uuid_str (uuid4 (urandom16 w))) in
    let filename :=
      ticker ++ lit "_" ++ strftime_Ymd_HMS (now w) ++ lit "_" ++ unique_id
      ++ lit ".png" in
    Some {| th_style_preset := style_preset;
            th_typography := typography;
            th_layout := layout;
            th_logo := logo;
            th_use_dark_bg := use_dark_bg;
            th_gradient_type := gradient_type;
            th_gradient := bg;
            th_gradient_style := gradient_style;
            th_canvas := img;
            th_text_color := text_color;
            th_subtitle_color := subtitle_color;
            th_brand_logo := lit "INVESTYWISE_" ++ brand_logo_suffix ++ lit ".png";
            th_text_area := area;
            th_headline := headline;
            th_lines := lines;
            th_line_height := (title_size typography + spacing typography)%Z;
            th_filename := filename |}
  else None.

(** ** Notions used in the statements about [wrap_text] *)

(** The state of the word loop once the current line is appended, as the
    code after the loop does. *)
Definition flush (st : list str * str) : list str :=
  if truthy (snd st) then fst st ++ [snd st] else fst st.

(** No line is empty. *)
Definition lines_truthy (l : list str) : Prop :=
  Forall (fun line => truthy line = true) l.

(** A word: not empty and free of white space. *)
Definition is_word (w : str) : bool :=
  truthy w && forallb (fun c => negb (isspace c)) w.

(** ** Shapes of the file name *)


(** ** Instances for the examples *)

(** A case mapping: the identity. *)
Definition no_case : UnicodeCase :=
  {| str_title := fun s => s; str_upper := fun s => s |}.

(** A monospaced font is its advance in pixels: a text is as wide as its
    characters together. *)
Definition monospaced (advance : Z) : FontMetrics unit :=
  fun _ s => (advance * Z.of_nat (length s))%Z.

(** A world with no logo files, a clock and 128 random bits. *)
Definition sample_world : World unit :=
  {| logo_file_exists := fun _ => false;
     color_thief := fun _ => None;
     random_tone := true;
     random_below := fun _ => 1%nat;
     pillow_ok := true;
     title_font := fun _ _ => tt;
     now := {| dt_year := 2024; dt_month := 3; dt_day := 9;
               dt_hour := 7; dt_minute := 5; dt_second := 0 |};
     urandom16 := 0x0123456789abcdef0123456789abcdef%N |}.

(** The same world with a logo file [TCS.png] whose dominant colour is a
    light grey. *)
Definition sample_world_logo : World unit :=
  {| logo_file_exists := fun name => bool_decide (name = lit "TCS.png");
     color_thief := fun _ => Some (240, 240, 240)%Z;
     random_tone := false;
     random_below := fun _ => 2%nat;
     pillow_ok := true;
     title_font := fun _ _ => tt;
     now := now sample_world;
     urandom16 := urandom16 sample_world |}.

(* ===================================================================== *)
(** * Part II: properties                                                 *)
(* ===================================================================== *)

(** ** Strings: prefixes and occurrences *)

Lemma starts_with_app (p s : str) : starts_with p (p ++ s) = true.
Proof.
  induction p as [|a p IH]; simpl; [reflexivity|].
  rewrite N.eqb_refl. exact IH.
Qed.

Lemma starts_with_split (p s : str) :
  starts_with p s = true -> exists t, s = p ++ t.
Proof.
  revert s. induction p as [|a p IH]; intros s Hs.
  - exists s. reflexivity.
  - destruct s as [|b s]; simpl in Hs; [discriminate|].
    apply andb_true_iff in Hs as [Hab Hs]. apply N.eqb_eq in Hab. subst b.
    destruct (IH s Hs) as [t ->]. exists t. reflexivity.
Qed.

Lemma starts_with_nil_r (p : str) : starts_with p [] = true -> p = [].
Proof. destruct p; simpl; [reflexivity|discriminate]. Qed.

Lemma str_contains_here (p s : str) :
  starts_with p s = true -> str_contains p s = true.
Proof. intros Hs. destruct s; simpl; rewrite Hs; reflexivity. Qed.

Lemma str_contains_cons (p : str) (c : char) (s : str) :
  str_contains p s = true -> str_contains p (c :: s) = true.
Proof. intros Hs. simpl. rewrite Hs. apply orb_true_r. Qed.

Lemma str_contains_app_r (p u s : str) :
  str_contains p s = true -> str_contains p (u ++ s) = true.
Proof.
  intros Hs. induction u as [|c u IH]; [exact Hs|].
  simpl app. apply str_contains_cons, IH.
Qed.

Lemma str_contains_intro (p u v : str) : str_contains p (u ++ p ++ v) = true.
Proof. apply str_contains_app_r, str_contains_here, starts_with_app. Qed.

Lemma str_contains_split (p s : str) :
  str_contains p s = true -> exists u v, s = u ++ p ++ v.
Proof.
  induction s as [|c s IH]; simpl; intros Hs.
  - rewrite orb_false_r in Hs. apply starts_with_split in Hs as [t ->].
    exists [], t. reflexivity.
  - apply orb_true_iff in Hs as [Hs|Hs].
    + apply starts_with_split in Hs as [t ->]. exists [], t. reflexivity.
    + destruct (IH Hs) as (u & v & ->). exists (c :: u), v. reflexivity.
Qed.

Lemma str_contains_app_l (p s v : str) :
  str_contains p s = true -> str_contains p (s ++ v) = true.
Proof.
  intros Hs. apply str_contains_split in Hs as (u & w & ->).
  rewrite <- !app_assoc. apply str_contains_intro.
Qed.

Lemma str_contains_nonempty (p s : str) :
  p <> [] -> str_contains p s = true -> s <> [].
Proof.
  intros Hp Hs ->. simpl in Hs. rewrite orb_false_r in Hs.
  apply starts_with_nil_r in Hs. contradiction.
Qed.

(** A pattern that has none of its characters equal to [c] cannot match
    across the position where [c] stands. *)
Lemma starts_with_before (old u rest : str) (c : char) :
  forallb (fun a => negb (a =? c)%N) old = true ->
  starts_with old (u ++ c :: rest) = true ->
  (length old <= length u)%nat.
Proof.
  revert u. induction old as [|a old IH]; intros u Hall Hs; simpl; [lia|].
  simpl in Hall. apply andb_true_iff in Hall as [Ha Hall].
  destruct u as [|b u]; simpl in Hs.
  - apply andb_true_iff in Hs as [Hac _]. rewrite Hac in Ha. discriminate.
  - apply andb_true_iff in Hs as [_ Hs]. simpl. specialize (IH u Hall Hs). lia.
Qed.

Lemma starts_with_head_ne (o0 : char) (ot : str) (c : char) (s : str) :
  (c =? o0)%N = false -> starts_with (o0 :: ot) (c :: s) = false.
Proof. intros Hc. simpl. rewrite N.eqb_sym, Hc. reflexivity. Qed.

(** ** [str.replace] *)

Section Replace.
Variables (o0 : char) (ot new : str).
Local Abbreviation old := (o0 :: ot).

(** Characters other than the first of [old] are copied. *)
Lemma replace_go_copy (w v : str) :
  forallb (fun a => negb (a =? o0)%N) w = true ->
  replace_go old new 0 (w ++ v) = w ++ replace_go old new 0 v.
Proof.
  induction w as [|c w IH]; intros Hall; [reflexivity|].
  simpl in Hall. apply andb_true_iff in Hall as [Hc Hall].
  apply negb_true_iff in Hc.
  change (replace_go old new 0 ((c :: w) ++ v))
    with (if starts_with old (c :: w ++ v)
          then new ++ replace_go old new (length old - 1) (w ++ v)
          else c :: replace_go old new 0 (w ++ v)).
  rewrite (starts_with_head_ne _ _ _ _ Hc), (IH Hall).
  reflexivity.
Qed.

(** An occurrence of [pat] survives the replacement when no occurrence of
    [old] can overlap it: the first character of each is absent from the
    other. *)
Lemma replace_go_keeps (p0 : char) (pt : str) (u v : str) (skip : nat) :
  forallb (fun a => negb (a =? p0)%N) old = true ->
  forallb (fun a => negb (a =? o0)%N) (p0 :: pt) = true ->
  (skip <= length u)%nat ->
  str_contains (p0 :: pt) (replace_go old new skip (u ++ (p0 :: pt) ++ v)) = true.
Proof.
  intros Hold Hpat. revert skip.
  induction u as [|c u IH]; intros skip Hskip.
  - assert (skip = 0%nat) as -> by (simpl in Hskip; lia).
    rewrite app_nil_l, (replace_go_copy _ _ Hpat).
    apply str_contains_here, starts_with_app.
  - destruct skip as [|k].
    + change (replace_go old new 0 ((c :: u) ++ (p0 :: pt) ++ v))
        with (if starts_with old (c :: u ++ (p0 :: pt) ++ v)
              then new ++ replace_go old new (length old - 1) (u ++ (p0 :: pt) ++ v)
              else c :: replace_go old new 0 (u ++ (p0 :: pt) ++ v)).
      destruct (starts_with old (c :: u ++ (p0 :: pt) ++ v)) eqn:Hm.
      * apply str_contains_app_r, IH.
        pose proof (starts_with_before old (c :: u) (pt ++ v) p0 Hold Hm) as Hlen.
        simpl length in *. lia.
      * apply str_contains_cons, IH. lia.
    + simpl. apply IH. simpl in Hskip. lia.
Qed.

(** Without an occurrence of [old] nothing is replaced. *)
Lemma replace_go_id (s : str) :
  str_contains old s = false -> replace_go old new 0 s = s.
Proof.
  induction s as [|c s IH]; intros Hs; [reflexivity|].
  simpl in Hs. apply orb_false_iff in Hs as [Hhere Hs].
  change (replace_go old new 0 (c :: s))
    with (if starts_with old (c :: s)
          then new ++ replace_go old new (length old - 1) s
          else c :: replace_go old new 0 s).
  simpl starts_with. rewrite Hhere, (IH Hs). reflexivity.
Qed.
End Replace.

Lemma str_replace_keeps (old pat new s : str) :
  match old, pat with
  | o0 :: _, p0 :: _ =>
      forallb (fun a => negb (a =? p0)%N) old
      && forallb (fun a => negb (a =? o0)%N) pat
  | _, _ => false
  end = true ->
  str_contains pat s = true ->
  str_contains pat (str_replace old new s) = true.
Proof.
  destruct old as [|o0 ot]; [discriminate|].
  destruct pat as [|p0 pt]; [discriminate|].
  intros Hsep Hs. apply andb_true_iff in Hsep as [Hold Hpat].
  apply str_contains_split in Hs as (u & v & ->).
  apply replace_go_keeps; [exact Hold|exact Hpat|lia].
Qed.

Lemma str_replace_id (old new s : str) :
  old <> [] -> str_contains old s = false -> str_replace old new s = s.
Proof.
  destruct old as [|o0 ot]; [contradiction|]. intros _. apply replace_go_id.
Qed.

(** ** [str.strip] *)

Lemma str_rstrip_cons (c : char) (s : str) :
  str_rstrip (c :: s) =
  match str_rstrip s with
  | [] => if isspace c then [] else [c]
  | _ :: _ => c :: str_rstrip s
  end.
Proof. simpl. destruct (str_rstrip s); reflexivity. Qed.

Lemma str_rstrip_app (a b : str) :
  str_rstrip (a ++ b) =
  match str_rstrip b with
  | [] => str_rstrip a
  | _ :: _ => a ++ str_rstrip b
  end.
Proof.
  induction a as [|c a IH].
  - simpl. destruct (str_rstrip b); reflexivity.
  - simpl app. rewrite !str_rstrip_cons, IH.
    destruct (str_rstrip b) as [|x r]; [reflexivity|].
    destruct a; reflexivity.
Qed.

Lemma str_rstrip_prefix (s : str) : exists w, s = str_rstrip s ++ w.
Proof.
  induction s as [|c s [w IH]].
  - exists []. reflexivity.
  - rewrite str_rstrip_cons. destruct (str_rstrip s) as [|x r] eqn:E.
    + destruct (isspace c).
      * exists (c :: s). reflexivity.
      * exists s. reflexivity.
    + exists w. simpl. f_equal. exact IH.
Qed.

Lemma str_rstrip_idem (s : str) : str_rstrip (str_rstrip s) = str_rstrip s.
Proof.
  induction s as [|c s IH]; [reflexivity|].
  rewrite str_rstrip_cons. destruct (str_rstrip s) as [|x r] eqn:E.
  - destruct (isspace c) eqn:Ec; [reflexivity|]. simpl. rewrite Ec. reflexivity.
  - rewrite str_rstrip_cons, IH. reflexivity.
Qed.

Lemma str_lstrip_suffix (s : str) : exists w, s = w ++ str_lstrip s.
Proof.
  induction s as [|c s [w IH]].
  - exists []. reflexivity.
  - simpl. destruct (isspace c).
    + exists (c :: w). simpl. f_equal. exact IH.
    + exists []. reflexivity.
Qed.

(** A stripped text does not start with a space ... *)
Lemma str_lstrip_head (s : str) :
  match str_lstrip s with [] => True | c :: _ => isspace c = false end.
Proof.
  induction s as [|c s IH]; simpl; [exact I|].
  destruct (isspace c) eqn:Ec; [exact IH|exact Ec].
Qed.

(** ... and stripping on the right keeps the first character. *)
Lemma str_rstrip_head (s : str) :
  match str_rstrip s, s with
  | c :: _, d :: _ => c = d
  | _ :: _, [] => False
  | [], _ => True
  end.
Proof.
  destruct s as [|d s]; [exact I|].
  rewrite str_rstrip_cons. destruct (str_rstrip s).
  - destruct (isspace d); [exact I|reflexivity].
  - reflexivity.
Qed.

Lemma str_lstrip_fixed (s : str) :
  match s with [] => True | c :: _ => isspace c = false end ->
  str_lstrip s = s.
Proof. destruct s as [|c s]; simpl; [reflexivity|]. intros ->. reflexivity. Qed.

Lemma str_strip_idem (s : str) : str_strip (str_strip s) = str_strip s.
Proof.
  unfold str_strip. rewrite str_lstrip_fixed.
  - apply str_rstrip_idem.
  - pose proof (str_lstrip_head s) as Hh.
    pose proof (str_rstrip_head (str_lstrip s)) as Hr.
    destruct (str_rstrip (str_lstrip s)) as [|c r]; [exact I|].
    destruct (str_lstrip s) as [|d t]; [contradiction|]. subst d. exact Hh.
Qed.

(** Stripping keeps an occurrence of a pattern that neither starts nor
    ends with a space, and adds none. *)
Lemma str_contains_lstrip (p0 : char) (pt s : str) :
  isspace p0 = false ->
  str_contains (p0 :: pt) s = true ->
  str_contains (p0 :: pt) (str_lstrip s) = true.
Proof.
  intros Hp0. induction s as [|c s IH]; intros Hs; [exact Hs|].
  simpl str_lstrip. destruct (isspace c) eqn:Ec; [|exact Hs].
  apply IH. simpl in Hs. apply orb_true_iff in Hs as [Hs|Hs]; [|exact Hs].
  apply andb_true_iff in Hs as [Heq _]. apply N.eqb_eq in Heq. congruence.
Qed.

Lemma str_contains_rstrip (pat s : str) :
  pat <> [] -> str_rstrip pat = pat ->
  str_contains pat s = true ->
  str_contains pat (str_rstrip s) = true.
Proof.
  intros Hne Hfix Hs. apply str_contains_split in Hs as (u & v & ->).
  assert (exists w, str_rstrip (pat ++ v) = pat ++ w) as [w Hw].
  { rewrite str_rstrip_app. destruct (str_rstrip v) as [|x r].
    - exists []. rewrite Hfix, app_nil_r. reflexivity.
    - exists (x :: r). reflexivity. }
  rewrite str_rstrip_app, Hw. destruct pat as [|p0 pt]; [contradiction|].
  simpl app at 1. rewrite <- Hw, Hw. apply (str_contains_intro (p0 :: pt) u w).
Qed.

Lemma str_contains_strip (p0 : char) (pt s : str) :
  isspace p0 = false -> str_rstrip (p0 :: pt) = p0 :: pt ->
  str_contains (p0 :: pt) s = true ->
  str_contains (p0 :: pt) (str_strip s) = true.
Proof.
  intros Hp0 Hfix Hs. unfold str_strip.
  apply str_contains_rstrip; [discriminate|exact Hfix|].
  apply str_contains_lstrip; assumption.
Qed.

Lemma str_contains_of_strip (pat s : str) :
  str_contains pat (str_strip s) = true -> str_contains pat s = true.
Proof.
  intros Hs. unfold str_strip in Hs.
  destruct (str_lstrip_suffix s) as [w Hw].
  destruct (str_rstrip_prefix (str_lstrip s)) as [w' Hw'].
  rewrite Hw. apply str_contains_app_r. rewrite Hw'.
  apply str_contains_app_l. exact Hs.
Qed.

(** A text without spaces at its ends is its own strip. *)
Lemma str_strip_fixed (s : str) :
  match s with [] => True | c :: _ => isspace c = false end ->
  str_rstrip s = s -> str_strip s = s.
Proof. intros Hh Hr. unfold str_strip. rewrite str_lstrip_fixed; assumption. Qed.

(** ** [clean_title] *)

(** The value [clean_title] returns, whatever [str.title] is: the statement
    after the second [return] is never reached. *)
Lemma clean_title_returns `{UnicodeCase} (prompt : str) :
  let text := str_strip (str_replace "- Intimation" "" prompt) in
  clean_title prompt =
  Returned (if str_contains "Listing Obligations" text
            then lit "Important Update" else text).
Proof.
  cbv zeta. unfold clean_title.
  destruct (str_contains _ _); cbn [and_then]; [reflexivity|].
  rewrite str_strip_idem. reflexivity.
Qed.

(** C1 (as amended).  For every prompt, [clean_title] removes the
    occurrences of ["- Intimation"] and trims the white space at both ends;
    when the text so obtained contains ["Listing Obligations"] it returns
    exactly ["Important Update"], and otherwise that text, with no change of
    case: the result does not depend on [str.title].  In particular a
    prompt that contains ["Listing Obligations"] always yields
    ["Important Update"], and a prompt with neither phrase yields the
    prompt trimmed. *)
Theorem clean_title_spec `{UnicodeCase} (prompt : str) :
  let text := str_strip (str_replace "- Intimation" "" prompt) in
  clean_title prompt =
    Returned (if str_contains "Listing Obligations" text
              then lit "Important Update" else text)
  /\ (str_contains "Listing Obligations" prompt = true ->
      clean_title prompt = Returned (lit "Important Update"))
  /\ (str_contains "- Intimation" prompt = false ->
      str_contains "Listing Obligations" prompt = false ->
      clean_title prompt = Returned (str_strip prompt)).
Proof.
  intros text. pose proof (clean_title_returns prompt) as Hret.
  cbv zeta in Hret. fold text in Hret. split; [exact Hret|]. split.
  - intros Hin. rewrite Hret.
    assert (str_contains "Listing Obligations" text = true) as ->; [|reflexivity].
    unfold text. apply str_contains_strip; [reflexivity|reflexivity|].
    apply str_replace_keeps; [reflexivity|exact Hin].
  - intros Hno Hlo. rewrite Hret. unfold text.
    rewrite str_replace_id by (discriminate || exact Hno).
    destruct (str_contains "Listing Obligations" (str_strip prompt)) eqn:E;
      [|reflexivity].
    apply str_contains_of_strip in E. congruence.
Qed.

(** The three parts of [clean_title_spec] at concrete prompts. *)
Lemma clean_title_spec_witness :
  @clean_title no_case "Re: Listing Obligations (SEBI)" = Returned (lit "Important Update")
  /\ @clean_title no_case "  Results out  " = Returned (str_strip "  Results out  ").
Proof.
  split.
  - apply (proj1 (proj2 (@clean_title_spec no_case "Re: Listing Obligations (SEBI)"))).
    reflexivity.
  - apply (proj2 (proj2 (@clean_title_spec no_case "  Results out  ")));
      reflexivity.
Defined.

(** C1 as stated fails: a prompt with neither phrase does not pass through
    unchanged when it has white space at an end, and removing
    ["- Intimation"] alone is not the result when a space is left at the
    end; and ["Important Update"] is also the result for a prompt that
    does not contain ["Listing Obligations"] itself. *)
Lemma clean_title_unchanged_counterexample :
  (str_contains "Listing Obligations" " Q3 results" = false
   /\ str_contains "- Intimation" " Q3 results" = false
   /\ @clean_title no_case " Q3 results" = Returned (lit "Q3 results")
   /\ lit "Q3 results" <> lit " Q3 results")
  /\ (@clean_title no_case "Board Meeting - Intimation" = Returned (lit "Board Meeting")
      /\ str_replace "- Intimation" "" "Board Meeting - Intimation" = lit "Board Meeting "
      /\ lit "Board Meeting" <> lit "Board Meeting ")
  /\ (str_contains "Listing Obligations" "Listing- Intimation Obligations" = false
      /\ @clean_title no_case "Listing- Intimation Obligations"
         = Returned (lit "Important Update")).
Proof. repeat split; try reflexivity; discriminate. Qed.

(** ** [str.join] and [str.split] *)

Lemma str_join_cons (sep x : str) (l : list str) :
  l <> [] -> str_join sep (x :: l) = x ++ sep ++ str_join sep l.
Proof. destruct l; [contradiction|reflexivity]. Qed.

Lemma str_join_app (sep : str) (l1 l2 : list str) :
  l1 <> [] -> l2 <> [] ->
  str_join sep (l1 ++ l2) = str_join sep l1 ++ sep ++ str_join sep l2.
Proof.
  intros H1 H2. induction l1 as [|x l1 IH]; [contradiction|].
  destruct l1 as [|y l1].
  - simpl app. rewrite str_join_cons by exact H2. reflexivity.
  - change ((x :: y :: l1) ++ l2) with (x :: (y :: l1) ++ l2).
    rewrite !str_join_cons by discriminate. rewrite IH by discriminate.
    rewrite <- !app_assoc. reflexivity.
Qed.

(** Joining two neighbours first changes nothing. *)
Lemma str_join_merge (sep a b : str) (l : list str) :
  str_join sep ((a ++ sep ++ b) :: l) = str_join sep (a :: b :: l).
Proof.
  destruct l as [|x l].
  - reflexivity.
  - rewrite !str_join_cons by discriminate. rewrite <- !app_assoc. reflexivity.
Qed.

Lemma str_join_merge_last (sep a b : str) (l : list str) :
  str_join sep (l ++ [a ++ sep ++ b]) = str_join sep (l ++ [a; b]).
Proof.
  destruct l as [|x l].
  - reflexivity.
  - rewrite !str_join_app by discriminate. reflexivity.
Qed.

Lemma str_join_truthy (sep x : str) (l : list str) :
  truthy x = true -> truthy (str_join sep (x :: l)) = true.
Proof. destruct x; [discriminate|]. intros _. destruct l; reflexivity. Qed.

(** The words of a text are not empty. *)
Lemma str_split_truthy (s : str) : Forall (fun w => truthy w = true) (str_split s).
Proof.
  induction s as [|c s IH]; simpl; [constructor|].
  destruct (isspace c); [exact IH|].
  destruct s as [|d s']; [repeat constructor|].
  destruct (isspace d); [constructor; [reflexivity|exact IH]|].
  destruct (str_split (d :: s')) as [|w ws]; [repeat constructor|].
  inversion IH; subst. constructor; [reflexivity|assumption].
Qed.

(** ** [wrap_text]: the loop over the words *)

Section WrapProofs.
Context {Font : Type} `{FontMetrics Font}.
Variable font : Font.
Variable max_width : Z.

Lemma wrap_words_flush (lines : list str) (words : list str) :
  wrap_words font max_width lines words =
  flush (fold_left (wrap_word font max_width) words (lines, [])).
Proof.
  unfold wrap_words, flush.
  destruct (fold_left _ _ _) as [l c]. reflexivity.
Qed.

(** *** No empty line *)

Lemma lines_truthy_snoc (l : list str) (x : str) :
  lines_truthy l -> truthy x = true -> lines_truthy (l ++ [x]).
Proof. intros Hl Hx. apply Forall_app. split; [exact Hl|repeat constructor; exact Hx]. Qed.

Lemma wrap_word_truthy (st : list str * str) (word : str) :
  lines_truthy (fst st) -> lines_truthy (fst (wrap_word font max_width st word)).
Proof.
  destruct st as [lines cur]. unfold wrap_word. simpl fst. intros Hl.
  destruct (_ <=? _)%Z; simpl fst; [exact Hl|].
  destruct (truthy cur) eqn:Ec; [|exact Hl].
  apply lines_truthy_snoc; assumption.
Qed.

Lemma wrap_loop_truthy (words : list str) (st : list str * str) :
  lines_truthy (fst st) ->
  lines_truthy (fst (fold_left (wrap_word font max_width) words st)).
Proof.
  revert st. induction words as [|w ws IH]; intros st Hl; [exact Hl|].
  simpl. apply IH, wrap_word_truthy, Hl.
Qed.

Lemma wrap_words_truthy (lines words : list str) :
  lines_truthy lines -> lines_truthy (wrap_words font max_width lines words).
Proof.
  intros Hl. rewrite wrap_words_flush. unfold flush.
  pose proof (wrap_loop_truthy words (lines, []) Hl) as Hloop.
  destruct (truthy (snd _)) eqn:Ec; [|exact Hloop].
  apply lines_truthy_snoc; assumption.
Qed.

Lemma wrap_part_truthy (lines : list str) (part : str) :
  lines_truthy lines -> lines_truthy (wrap_part font max_width lines part).
Proof.
  intros Hl. unfold wrap_part.
  destruct (truthy (str_strip part)) eqn:Ep; [|exact Hl].
  destruct (_ <=? _)%Z.
  - apply lines_truthy_snoc; assumption.
  - apply wrap_words_truthy, Hl.
Qed.

Lemma wrap_parts_truthy (parts : list str) (lines : list str) :
  lines_truthy lines ->
  lines_truthy (fold_left (wrap_part font max_width) parts lines).
Proof.
  revert lines. induction parts as [|p ps IH]; intros lines Hl; [exact Hl|].
  simpl. apply IH, wrap_part_truthy, Hl.
Qed.

(** *** The words are kept *)

Lemma flush_wrap_word (st : list str * str) (word : str) :
  truthy word = true ->
  flush (wrap_word font max_width st word) <> []
  /\ str_join " " (flush (wrap_word font max_width st word))
     = str_join " " (flush st ++ [word]).
Proof.
  intros Hw. destruct st as [lines cur]. unfold wrap_word, flush.
  cbn [fst snd]. destruct cur as [|c cur]; cbn [truthy].
  - (* the first word of a line *)
    destruct (_ <=? _)%Z; cbn [fst snd]; rewrite Hw;
      (split; [destruct lines; discriminate|reflexivity]).
  - destruct (_ <=? _)%Z; cbn [fst snd].
    + change (truthy ((c :: cur) ++ lit " " ++ word)) with true. cbv iota.
      split; [destruct lines; discriminate|].
      rewrite <- app_assoc. apply str_join_merge_last.
    + rewrite Hw. split; [destruct lines; discriminate|reflexivity].
Qed.

Lemma flush_wrap_loop (words : list str) (st : list str * str) :
  Forall (fun w => truthy w = true) words ->
  str_join " " (flush (fold_left (wrap_word font max_width) words st))
  = str_join " " (flush st ++ words).
Proof.
  revert st. induction words as [|w ws IH]; intros st Hws.
  - simpl. rewrite app_nil_r. reflexivity.
  - inversion Hws as [|? ? Hw Hws']; subst. simpl fold_left. rewrite (IH _ Hws').
    destruct (flush_wrap_word st w Hw) as [Hne Hjoin].
    destruct ws as [|w' ws].
    + rewrite app_nil_r. exact Hjoin.
    + change (flush st ++ w :: w' :: ws) with (flush st ++ [w] ++ w' :: ws).
      rewrite (app_assoc (flush st)).
      rewrite !(str_join_app _ _ (w' :: ws)); try discriminate; try exact Hne.
      * rewrite Hjoin. reflexivity.
      * destruct (flush st); discriminate.
Qed.

Lemma wrap_words_join (words : list str) :
  Forall (fun w => truthy w = true) words ->
  str_join " " (wrap_words font max_width [] words) = str_join " " words.
Proof. intros Hws. rewrite wrap_words_flush. apply (flush_wrap_loop words ([], []) Hws). Qed.

(** *** Everything fits on one line *)

Lemma wrap_word_first (lines : list str) (word : str) :
  (textbbox_right font word <= max_width)%Z ->
  wrap_word font max_width (lines, []) word = (lines, word).
Proof.
  intros Hfit. unfold wrap_word. cbn [truthy].
  apply Z.leb_le in Hfit. rewrite Hfit. reflexivity.
Qed.

Lemma wrap_word_fits (lines : list str) (cur word : str) :
  truthy cur = true ->
  (textbbox_right font (cur ++ lit " " ++ word) <= max_width)%Z ->
  wrap_word font max_width (lines, cur) word = (lines, cur ++ lit " " ++ word).
Proof.
  intros Hcur Hfit. unfold wrap_word. rewrite Hcur.
  apply Z.leb_le in Hfit. rewrite Hfit. reflexivity.
Qed.

Lemma wrap_loop_fits (words : list str) (lines : list str) (cur : str) :
  truthy cur = true ->
  (forall k, (1 <= k <= length words)%nat ->
     (textbbox_right font (str_join " " (cur :: take k words)) <= max_width)%Z) ->
  fold_left (wrap_word font max_width) words (lines, cur)
  = (lines, str_join " " (cur :: words)).
Proof.
  revert cur. induction words as [|w ws IH]; intros cur Hcur Hfit; [reflexivity|].
  cbn [fold_left]. rewrite wrap_word_fits.
  - rewrite IH.
    + rewrite str_join_merge. reflexivity.
    + destruct cur; [discriminate|reflexivity].
    + intros k Hk. rewrite str_join_merge.
      apply (Hfit (S k)). cbn [length]. lia.
  - exact Hcur.
  - apply (Hfit 1%nat). cbn [length]. lia.
Qed.

Lemma wrap_words_fits (words : list str) :
  words <> [] ->
  Forall (fun w => truthy w = true) words ->
  (forall k, (1 <= k <= length words)%nat ->
     (textbbox_right font (str_join " " (take k words)) <= max_width)%Z) ->
  wrap_words font max_width [] words = [str_join " " words].
Proof.
  intros Hne Hws Hfit. destruct words as [|w ws]; [contradiction|].
  inversion Hws as [|? ? Hw _]; subst.
  rewrite wrap_words_flush. cbn [fold_left]. rewrite wrap_word_first.
  - rewrite wrap_loop_fits.
    + unfold flush. cbn [fst snd]. rewrite str_join_truthy by exact Hw.
      reflexivity.
    + exact Hw.
    + intros k Hk. apply (Hfit (S k)). cbn [length]. lia.
  - apply (Hfit 1%nat). cbn [length]. lia.
Qed.

(** *** A part that fits *)

Lemma wrap_part_fits (lines : list str) (part : str) :
  truthy (str_strip part) = true ->
  (textbbox_right font (str_strip part) <= max_width)%Z ->
  wrap_part font max_width lines part = lines ++ [str_strip part].
Proof.
  intros Hp Hfit. unfold wrap_part. rewrite Hp.
  apply Z.leb_le in Hfit. rewrite Hfit. reflexivity.
Qed.
End WrapProofs.

(** ** Words and white space *)

Lemma str_split_cons_word (c : char) (s : str) :
  isspace c = false ->
  exists w ws, str_split (c :: s) = w :: ws.
Proof.
  intros Hc. simpl. rewrite Hc. destruct s as [|d s']; [eauto|].
  destruct (isspace d); [eauto|].
  destruct (str_split (d :: s')); eauto.
Qed.

(** The words of [a + " " + b] are those of [a], then those of [b]. *)
Lemma str_split_app_space (a b : str) :
  str_split (a ++ lit " " ++ b) = str_split a ++ str_split b.
Proof.
  induction a as [|c a IH]; [reflexivity|].
  change ((c :: a) ++ lit " " ++ b) with (c :: (a ++ lit " " ++ b)).
  destruct (isspace c) eqn:Ec.
  - simpl. rewrite Ec. exact IH.
  - destruct a as [|d a'].
    + simpl. rewrite Ec. reflexivity.
    + change ((d :: a') ++ lit " " ++ b) with (d :: (a' ++ lit " " ++ b)) in *.
      cbn [str_split]. rewrite Ec. cbn [str_split] in IH.
      destruct (isspace d) eqn:Ed.
      * rewrite IH. reflexivity.
      * rewrite IH.
        destruct (str_split_cons_word d a' Ed) as (w & ws & E).
        cbn [str_split] in E. rewrite Ed in E. rewrite E. reflexivity.
Qed.

Lemma str_split_join (l : list str) :
  str_split (str_join " " l) = flat_map str_split l.
Proof.
  induction l as [|x l IH]; [reflexivity|].
  destruct l as [|y l].
  - simpl. rewrite app_nil_r. reflexivity.
  - rewrite str_join_cons by discriminate.
    rewrite str_split_app_space, IH. reflexivity.
Qed.

Lemma str_split_words (s : str) : Forall (fun w => is_word w = true) (str_split s).
Proof.
  induction s as [|c s IH]; simpl; [constructor|].
  destruct (isspace c) eqn:Ec; [exact IH|].
  assert (is_word [c] = true) as Hc by (unfold is_word; simpl; rewrite Ec; reflexivity).
  destruct s as [|d s']; [repeat constructor; exact Hc|].
  destruct (isspace d); [constructor; [exact Hc|exact IH]|].
  destruct (str_split (d :: s')) as [|w ws]; [repeat constructor; exact Hc|].
  inversion IH as [|? ? Hw Hws]; subst. constructor; [|exact Hws].
  unfold is_word in *. simpl. rewrite Ec. simpl.
  apply andb_true_iff in Hw as [_ Hw]. exact Hw.
Qed.

Lemma str_split_word (w : str) : is_word w = true -> str_split w = [w].
Proof.
  unfold is_word. induction w as [|c w IH]; [discriminate|]. intros Hw.
  simpl in Hw. apply andb_true_iff in Hw as [Hc Hw]. apply negb_true_iff in Hc.
  simpl. rewrite Hc. destruct w as [|d w']; [reflexivity|].
  pose proof Hw as Hw'. simpl in Hw'. apply andb_true_iff in Hw' as [Hd _].
  apply negb_true_iff in Hd. rewrite Hd.
  rewrite IH by exact Hw. reflexivity.
Qed.

Lemma str_split_of_words (l : list str) :
  Forall (fun w => is_word w = true) l -> flat_map str_split l = l.
Proof.
  induction 1 as [|w l Hw _ IH]; [reflexivity|].
  simpl. rewrite (str_split_word w Hw), IH. reflexivity.
Qed.

Lemma str_split_idem (s : str) : flat_map str_split (str_split s) = str_split s.
Proof. apply str_split_of_words, str_split_words. Qed.

(** Splitting ignores the white space at both ends. *)
Lemma str_split_spaces (w : str) : forallb isspace w = true -> str_split w = [].
Proof.
  induction w as [|c w IH]; [reflexivity|]. simpl. intros Hw.
  apply andb_true_iff in Hw as [Hc Hw]. rewrite Hc. exact (IH Hw).
Qed.

Lemma str_split_app_spaces (a w : str) :
  forallb isspace w = true -> str_split (a ++ w) = str_split a.
Proof.
  intros Hw. induction a as [|c a IH]; [exact (str_split_spaces w Hw)|].
  change ((c :: a) ++ w) with (c :: (a ++ w)). cbn [str_split].
  destruct (isspace c); [exact IH|].
  destruct a as [|d a'].
  - simpl app. destruct w as [|e w']; [reflexivity|].
    pose proof Hw as Hw'. simpl in Hw'. apply andb_true_iff in Hw' as [He _].
    rewrite He. rewrite (str_split_spaces _ Hw). reflexivity.
  - change ((d :: a') ++ w) with (d :: (a' ++ w)) in *. rewrite IH. reflexivity.
Qed.

Lemma str_rstrip_nil (s : str) : str_rstrip s = [] -> forallb isspace s = true.
Proof.
  induction s as [|c s IH]; [reflexivity|]. rewrite str_rstrip_cons.
  destruct (str_rstrip s); [|discriminate].
  destruct (isspace c) eqn:Ec; [|discriminate]. intros _. simpl.
  rewrite Ec. exact (IH eq_refl).
Qed.

Lemma str_rstrip_spaces (s : str) :
  exists w, s = str_rstrip s ++ w /\ forallb isspace w = true.
Proof.
  induction s as [|c s (w & IH & Hw)].
  - exists []. split; reflexivity.
  - rewrite str_rstrip_cons. destruct (str_rstrip s) as [|x r] eqn:E.
    + pose proof (str_rstrip_nil s E) as Hs.
      destruct (isspace c) eqn:Ec.
      * exists (c :: s). split; [reflexivity|]. simpl. rewrite Ec. exact Hs.
      * exists s. split; [reflexivity|exact Hs].
    + exists w. split; [|exact Hw]. simpl. f_equal. exact IH.
Qed.

Lemma str_split_lstrip (s : str) : str_split (str_lstrip s) = str_split s.
Proof.
  induction s as [|c s IH]; [reflexivity|].
  cbn [str_lstrip]. destruct (isspace c) eqn:Ec; [|reflexivity].
  rewrite IH. simpl. rewrite Ec. reflexivity.
Qed.

Lemma str_split_strip (s : str) : str_split (str_strip s) = str_split s.
Proof.
  unfold str_strip. rewrite <- (str_split_lstrip s).
  destruct (str_rstrip_spaces (str_lstrip s)) as (w & Hw & Hsp).
  rewrite Hw at 2. rewrite str_split_app_spaces by exact Hsp. reflexivity.
Qed.

(** A text whose white space is single spaces (U+0020), each followed by a
    character that is not white space, is its words joined by spaces. *)
Lemma str_join_split_single (s : str) :
  single_spaced s = true -> str_join " " (str_split s) = str_lstrip s.
Proof.
  induction s as [|c s IH]; [reflexivity|].
  cbn [single_spaced str_lstrip]. intros Hs.
  apply andb_true_iff in Hs as [Hc Hs]. specialize (IH Hs).
  destruct (isspace c) eqn:Ec.
  - simpl. rewrite Ec. exact IH.
  - destruct s as [|d s']; [simpl; rewrite Ec; reflexivity|].
    cbn [str_split]. rewrite Ec.
    destruct (isspace d) eqn:Ed.
    + cbn [single_spaced] in Hs. rewrite Ed in Hs.
      apply andb_true_iff in Hs as [Hd _]. apply andb_true_iff in Hd as [Hd Hnext].
      apply N.eqb_eq in Hd. subst d.
      destruct s' as [|e s'']; [discriminate|]. apply negb_true_iff in Hnext.
      cbn [str_lstrip] in IH. rewrite Ed in IH. cbn [str_lstrip] in IH.
      rewrite Hnext in IH.
      destruct (str_split_cons_word e s'' Hnext) as (w & ws & E).
      assert (str_join " " (w :: ws) = e :: s'') as IH'
        by (rewrite <- E; exact IH).
      rewrite E, str_join_cons by discriminate.
      rewrite IH'. reflexivity.
    + cbn [str_lstrip] in IH. rewrite Ed in IH.
      destruct (str_split_cons_word d s' Ed) as (w & ws & E).
      cbn [str_split] in E, IH. rewrite Ed in E, IH. rewrite E in *.
      destruct ws as [|w' ws].
      * simpl in *. rewrite IH. reflexivity.
      * rewrite str_join_cons in * by discriminate.
        change ((c :: w) ++ lit " " ++ str_join " " (w' :: ws))
          with (c :: (w ++ lit " " ++ str_join " " (w' :: ws))).
        rewrite IH. reflexivity.
Qed.

Lemma str_join_split_strip (s : str) :
  single_spaced (str_strip s) = true ->
  str_join " " (str_split s) = str_strip s.
Proof.
  intros Hs. rewrite <- str_split_strip, (str_join_split_single _ Hs).
  apply str_lstrip_fixed.
  pose proof (str_lstrip_head s) as Hh.
  pose proof (str_rstrip_head (str_lstrip s)) as Hr. unfold str_strip.
  destruct (str_rstrip (str_lstrip s)) as [|c r]; [exact I|].
  destruct (str_lstrip s) as [|d t]; [contradiction|]. subst d. exact Hh.
Qed.

(** ** [wrap_text] *)

(** C9.  For every text, font and width, no line that [wrap_text] returns
    is empty: in a text with manual breaks a part that is empty once
    stripped is skipped, and the word loop appends the current line only
    when it is not empty. *)
Theorem wrap_text_lines_nonempty {Font : Type} `{FontMetrics Font}
    (text : str) (font : Font) (max_width : Z) :
  Forall (fun line => line <> []) (wrap_text text font max_width).
Proof.
  assert (lines_truthy (wrap_text text font max_width)) as Hl.
  { unfold wrap_text. destruct (str_contains _ text).
    - apply wrap_parts_truthy. constructor.
    - apply wrap_words_truthy. constructor. }
  unfold lines_truthy in Hl. eapply Forall_impl; [exact Hl|].
  intros line Hline ->. discriminate Hline.
Qed.

(** C10.  For every text without [" - "], and every font and width, the
    lines that [wrap_text] returns, joined by single spaces, are the words
    of the text joined by single spaces; and the words of the lines, in
    their order, are the words of the text: none is lost, repeated, moved
    or changed. *)
Theorem wrap_text_keeps_words {Font : Type} `{FontMetrics Font}
    (text : str) (font : Font) (max_width : Z) :
  str_contains " - " text = false ->
  str_join " " (wrap_text text font max_width) = str_join " " (str_split text)
  /\ flat_map str_split (wrap_text text font max_width) = str_split text.
Proof.
  intros Hno. unfold wrap_text. rewrite Hno.
  assert (str_join " " (wrap_words font max_width [] (str_split text))
          = str_join " " (str_split text)) as Hjoin
    by apply wrap_words_join, str_split_truthy.
  split; [exact Hjoin|].
  rewrite <- str_split_join, Hjoin, str_split_join. apply str_split_idem.
Qed.

Lemma wrap_text_keeps_words_witness :
  str_join " " (@wrap_text unit (monospaced 10) "  Board  meeting on Friday " tt 100)
  = str_join " " (str_split "  Board  meeting on Friday ")
  /\ flat_map str_split (@wrap_text unit (monospaced 10) "  Board  meeting on Friday " tt 100)
     = str_split "  Board  meeting on Friday ".
Proof.
  apply (@wrap_text_keeps_words unit (monospaced 10)
           "  Board  meeting on Friday " tt 100).
  reflexivity.
Defined.

(** C2 (as amended).  For every text without [" - "] that has at least one
    word, and every width that each leading run of its words, joined by
    single spaces, fits, [wrap_text] returns exactly one line: the words
    joined by single spaces.  That line is the trimmed text when the white
    space inside the trimmed text is single spaces. *)
Theorem wrap_text_one_line {Font : Type} `{FontMetrics Font}
    (text : str) (font : Font) (max_width : Z) :
  str_contains " - " text = false ->
  str_split text <> [] ->
  (forall k, (1 <= k <= length (str_split text))%nat ->
     (textbbox_right font (str_join " " (take k (str_split text))) <= max_width)%Z) ->
  wrap_text text font max_width = [str_join " " (str_split text)]
  /\ (single_spaced (str_strip text) = true ->
      wrap_text text font max_width = [str_strip text]).
Proof.
  intros Hno Hne Hfit.
  assert (wrap_text text font max_width = [str_join " " (str_split text)]) as Hone.
  { unfold wrap_text. rewrite Hno.
    apply wrap_words_fits; [exact Hne|apply str_split_truthy|exact Hfit]. }
  split; [exact Hone|].
  intros Hs. rewrite Hone, (str_join_split_strip text Hs). reflexivity.
Qed.

Lemma wrap_text_one_line_witness :
  @wrap_text unit (monospaced 10) " Results announced today  " tt 400
  = [lit "Results announced today"].
Proof.
  apply (proj2 (@wrap_text_one_line unit (monospaced 10)
                  " Results announced today  " tt 400 eq_refl
                  ltac:(discriminate)
                  ltac:(intros k Hk; vm_compute in Hk;
                        assert (k = 1 \/ k = 2 \/ k = 3)%nat as [->|[->| ->]] by lia;
                        vm_compute; discriminate))).
  reflexivity.
Defined.

(** C2 as stated fails.  With a font of 10 pixels a character and a width
    of 100 pixels the whole text fits, yet the empty text gives no line at
    all, and a text with two spaces between its words gives the words
    joined by one space, which is not the trimmed text. *)
Lemma wrap_text_one_line_counterexample :
  (str_contains " - " "" = false
   /\ (@textbbox_right unit (monospaced 10) tt "" <= 100)%Z
   /\ @wrap_text unit (monospaced 10) "" tt 100 = [])
  /\ (str_contains " - " "a  b" = false
      /\ (@textbbox_right unit (monospaced 10) tt "a  b" <= 100)%Z
      /\ @wrap_text unit (monospaced 10) "a  b" tt 100 = [lit "a b"]
      /\ str_strip "a  b" = lit "a  b"
      /\ lit "a b" <> lit "a  b").
Proof. repeat split; try reflexivity; try discriminate. Qed.

(** C3.  For the text ["A - B - C"] and a width that each of ["A"], ["B"]
    and ["C"] fits, [wrap_text] returns exactly the three lines ["A"],
    ["B"], ["C"]; the delimiter [" - "] is in none of them. *)
Theorem wrap_text_manual_breaks {Font : Type} `{FontMetrics Font}
    (font : Font) (max_width : Z) :
  (textbbox_right font "A" <= max_width)%Z ->
  (textbbox_right font "B" <= max_width)%Z ->
  (textbbox_right font "C" <= max_width)%Z ->
  wrap_text "A - B - C" font max_width = [lit "A"; lit "B"; lit "C"]
  /\ Forall (fun line => str_contains " - " line = false)
            (wrap_text "A - B - C" font max_width).
Proof.
  intros HA HB HC.
  assert (wrap_text "A - B - C" font max_width = [lit "A"; lit "B"; lit "C"]) as E.
  { unfold wrap_text.
    change (str_contains " - " "A - B - C") with true. cbv iota.
    change (str_split_on " - " "A - B - C") with [lit "A"; lit "B"; lit "C"].
    cbn [fold_left].
    rewrite (wrap_part_fits font max_width [] "A" eq_refl HA).
    rewrite (wrap_part_fits font max_width _ "B" eq_refl HB).
    rewrite (wrap_part_fits font max_width _ "C" eq_refl HC).
    reflexivity. }
  split; [exact E|]. rewrite E. repeat constructor.
Qed.

Lemma wrap_text_manual_breaks_witness :
  @wrap_text unit (monospaced 10) "A - B - C" tt 50 = [lit "A"; lit "B"; lit "C"]
  /\ Forall (fun line => str_contains " - " line = false)
            (@wrap_text unit (monospaced 10) "A - B - C" tt 50).
Proof.
  apply (@wrap_text_manual_breaks unit (monospaced 10) tt 50);
    vm_compute; discriminate.
Defined.

(** ** The [DesignSystem] tables *)



Lemma random_choice_Some {Font A} (w : World Font) (l : list A) :
  l <> [] -> is_Some (random_choice w l).
Proof.
  intros Hl. unfold random_choice. apply lookup_lt_is_Some_2.
  apply Nat.mod_upper_bound. destruct l; [contradiction|discriminate].
Qed.

Lemma random_choice_elem {Font A} (w : World Font) (l : list A) (x : A) :
  random_choice w l = Some x -> x ∈ l.
Proof. unfold random_choice. apply list_elem_of_lookup_2. Qed.



(** ** [generate_thumbnail]: what a returned thumbnail was built from *)

Lemma generate_thumbnail_Some `{UnicodeCase} {Font : Type} `{FontMetrics Font}
    (w : World Font) (ticker stock_name prompt : str) (font_family : option str)
    (style_preset : str) (t : thumbnail) :
  generate_thumbnail w ticker stock_name prompt font_family style_preset = Some t ->
  let logo := find_logo w ticker in
  let use_dark_bg :=
    match logo with
    | Some logo_path => negb (is_color_dark (get_dominant_color w logo_path))
    | None => random_tone w
    end in
  th_logo t = logo
  /\ th_use_dark_bg t = use_dark_bg
  /\ th_gradient_type t = (if use_dark_bg then lit "dark" else lit "light")
  /\ th_text_color t = (if use_dark_bg then lit "#FFFFFF" else lit "#1F2937")
  /\ th_subtitle_color t = (if use_dark_bg then lit "#D1D5DB" else lit "#6B7280")
  /\ (exists by_tone pairs,
        GRADIENTS !! th_style_preset t = Some by_tone
        /\ by_tone !! th_gradient_type t = Some pairs
        /\ th_gradient t ∈ pairs)
  /\ th_filename t =
       ticker ++ lit "_" ++ strftime_Ymd_HMS (now w) ++ lit "_"
       ++ take 8 (uuid_str (uuid4 (urandom16 w))) ++ lit ".png".
Proof.
  unfold generate_thumbnail. intros Hgen. cbv zeta.
  destruct (TYPOGRAPHY !! _) as [ty|]; [|discriminate]. cbn [mbind option_bind] in Hgen.
  destruct (LAYOUTS !! _) as [la|]; [|discriminate]. cbn [mbind option_bind] in Hgen.
  destruct (GRADIENTS !! _) as [by_tone|] eqn:Eg; [|discriminate].
  cbn [mbind option_bind] in Hgen.
  destruct (by_tone !! _) as [pairs|] eqn:Ep; [|discriminate].
  cbn [mbind option_bind] in Hgen.
  destruct (random_choice w pairs) as [bg|] eqn:Eb; [|discriminate].
  cbn [mbind option_bind] in Hgen.
  destruct (create_gradient_background _ _ _ _) as [img|]; [|discriminate].
  cbn [mbind option_bind] in Hgen.
  destruct (text_area _ _) as [area|]; [|discriminate].
  cbn [mbind option_bind] in Hgen.
  destruct (pillow_ok w); [|discriminate].
  destruct (clean_title prompt) as [headline|]; [|discriminate].
  cbn [mbind option_bind] in Hgen.
  injection Hgen as <-. cbn.
  repeat (split; [reflexivity|]). split; [|reflexivity].
  exists by_tone, pairs. split; [exact Eg|]. split; [exact Ep|].
  apply (random_choice_elem w), Eb.
Qed.

(** C5.  Whenever a logo file exists, a thumbnail that
    [generate_thumbnail] returns has its background tone opposite to the
    tone of the logo's dominant colour: [use_dark_bg] is
    [not is_color_dark(dominant_color)].  A light dominant colour gives the
    dark scheme (a pair of the preset's ["dark"] list, white text), a dark
    one the light scheme. *)
Theorem background_opposes_logo `{UnicodeCase} {Font : Type} `{FontMetrics Font}
    (w : World Font) (ticker stock_name prompt : str) (font_family : option str)
    (style_preset : str) (logo : str) (t : thumbnail) :
  find_logo w ticker = Some logo ->
  generate_thumbnail w ticker stock_name prompt font_family style_preset = Some t ->
  let dominant_color := get_dominant_color w logo in
  th_use_dark_bg t = negb (is_color_dark dominant_color)
  /\ th_gradient_type t = (if is_color_dark dominant_color then lit "light" else lit "dark")
  /\ th_text_color t = (if is_color_dark dominant_color then lit "#1F2937" else lit "#FFFFFF")
  /\ exists by_tone pairs,
       GRADIENTS !! th_style_preset t = Some by_tone
       /\ by_tone !! (if is_color_dark dominant_color then lit "light" else lit "dark")
          = Some pairs
       /\ th_gradient t ∈ pairs.
Proof.
  intros Hlogo Hgen dominant_color.
  destruct (generate_thumbnail_Some w ticker stock_name prompt font_family
              style_preset t Hgen) as (_ & Hdark & Htype & Htext & _ & Hpair & _).
  rewrite Hlogo in Hdark, Htype, Htext. fold dominant_color in Hdark, Htype, Htext.
  split; [exact Hdark|].
  assert (th_gradient_type t
          = (if is_color_dark dominant_color then lit "light" else lit "dark")) as Ht
    by (rewrite Htype; destruct (is_color_dark dominant_color); reflexivity).
  split; [exact Ht|].
  split; [rewrite Htext; destruct (is_color_dark dominant_color); reflexivity|].
  rewrite <- Ht. exact Hpair.
Qed.

Lemma background_opposes_logo_witness :
  exists t,
    @generate_thumbnail no_case unit (monospaced 10) sample_world_logo
       "TCS" "Tata Consultancy" "Board Meeting - Intimation" None "corporate" = Some t
    /\ is_color_dark (240, 240, 240)%Z = false
    /\ th_use_dark_bg t = true
    /\ th_gradient_type t = lit "dark"
    /\ th_gradient t = ((6, 78, 59), (5, 150, 105))%Z.
Proof.
  assert (th_gradient <$>
            @generate_thumbnail no_case unit (monospaced 10) sample_world_logo
              "TCS" "Tata Consultancy" "Board Meeting - Intimation" None "corporate"
          = Some ((6, 78, 59), (5, 150, 105))%Z) as Hg
    by (vm_compute; reflexivity).
  destruct (@generate_thumbnail no_case unit (monospaced 10) sample_world_logo
              "TCS" "Tata Consultancy" "Board Meeting - Intimation" None "corporate")
    as [t|] eqn:E; [|discriminate Hg].
  exists t. split; [reflexivity|].
  destruct (@background_opposes_logo no_case unit (monospaced 10) sample_world_logo
              "TCS" "Tata Consultancy" "Board Meeting - Intimation" None "corporate"
              "TCS.png" t eq_refl E) as (Hdark & Htype & _).
  split; [reflexivity|]. split; [exact Hdark|]. split; [exact Htype|].
  injection Hg as Hg. exact Hg.
Defined.

(** ** Decimal and hexadecimal numerals *)

















(** ** [range] *)

Lemma py_range_In (n y : Z) : In y (py_range n) <-> (0 <= y < n)%Z.
Proof.
  unfold py_range. rewrite in_map_iff. split.
  - intros (k & <- & Hk). apply in_seq in Hk. lia.
  - intros Hy. exists (Z.to_nat y). split; [lia|]. apply in_seq. lia.
Qed.

Lemma py_range_NoDup (n : Z) : NoDup (py_range n).
Proof.
  unfold py_range. apply NoDup_ListNoDup, Finite.Injective_map_NoDup.
  - intros a b Hab. lia.
  - apply seq_NoDup.
Qed.

(** ** [is_color_dark] *)

#[local] Set Warnings "-inexact-float".

(** Every colour of eight bits a channel, evaluated. *)
Lemma luma_check_ok :
  forallb (luma_check_r (luma_terms 587 0.587%float) (luma_terms 114 0.114%float))
          (luma_terms 299 0.299%float) = true.
Proof. vm_cast_no_check (eq_refl true). Qed.

Lemma luma_terms_In (k : Z) (c : float) (v : Z) :
  (0 <= v <= 255)%Z -> In ((k * v)%Z, (c * float_of_int v)%float) (luma_terms k c).
Proof.
  intros Hv. unfold luma_terms.
  apply (in_map (fun v => ((k * v)%Z, (c * float_of_int v)%float))).
  apply py_range_In. lia.
Qed.

(** Away from the threshold the rounding of the sum does not matter. *)
Lemma is_color_dark_exact (r g b : Z) :
  (0 <= r <= 255)%Z -> (0 <= g <= 255)%Z -> (0 <= b <= 255)%Z ->
  luma1000 (r, g, b) <> 127500%Z ->
  is_color_dark (r, g, b) = (luma1000 (r, g, b) <? 127500)%Z.
Proof.
  intros Hr Hg Hb Hne.
  pose proof (proj1 (forallb_forall _ _) luma_check_ok _ (luma_terms_In 299 0.299 r Hr))
    as Hcr.
  pose proof (proj1 (forallb_forall _ _) Hcr _ (luma_terms_In 587 0.587 g Hg)) as Hcg.
  pose proof (proj1 (forallb_forall _ _) Hcg _ (luma_terms_In 114 0.114 b Hb)) as Hcb.
  unfold luma_check_b in Hcb. cbn [fst snd] in Hcb.
  change (PrimFloat.ltb _ 127.5%float) with (is_color_dark (r, g, b)) in Hcb.
  change (299 * r + 587 * g + 114 * b)%Z with (luma1000 (r, g, b)) in Hcb.
  destruct (Z.compare_spec (luma1000 (r, g, b)) 127500) as [E|E|E].
  - contradiction.
  - rewrite Hcb. symmetry. apply Z.ltb_lt. exact E.
  - apply negb_true_iff in Hcb. rewrite Hcb. symmetry. apply Z.ltb_ge. lia.
Qed.

(** C7 (as amended).  For every RGB triple of integers in 0 .. 255,
    [is_color_dark] computes the luminance
    [0.299 * R + 0.587 * G + 0.114 * B] in binary64 and returns true exactly
    when the computed value is below 127.5.  For every triple whose exact
    luminance is not 127.5 that is the exact comparison; black is dark and
    white is not; and a colour whose computed luminance is exactly 127.5,
    such as (1, 173, 225), is not dark. *)
Theorem is_color_dark_threshold (r g b : Z) :
  (0 <= r <= 255)%Z -> (0 <= g <= 255)%Z -> (0 <= b <= 255)%Z ->
  is_color_dark (r, g, b)
  = PrimFloat.ltb (0.299 * float_of_int r + 0.587 * float_of_int g
                   + 0.114 * float_of_int b)%float 127.5%float
  /\ (299 * r + 587 * g + 114 * b < 127500 -> is_color_dark (r, g, b) = true)%Z
  /\ (299 * r + 587 * g + 114 * b > 127500 -> is_color_dark (r, g, b) = false)%Z
  /\ (brightness (r, g, b) = 127.5%float -> is_color_dark (r, g, b) = false)
  /\ is_color_dark (0, 0, 0)%Z = true
  /\ is_color_dark (255, 255, 255)%Z = false
  /\ brightness (1, 173, 225)%Z = 127.5%float.
Proof.
  intros Hr Hg Hb. split; [reflexivity|].
  split.
  { intros Hlt. rewrite is_color_dark_exact by (assumption || (unfold luma1000; lia)).
    apply Z.ltb_lt. exact Hlt. }
  split.
  { intros Hgt. rewrite is_color_dark_exact by (assumption || (unfold luma1000; lia)).
    apply Z.ltb_ge. unfold luma1000. lia. }
  split.
  { intros Hc. unfold is_color_dark. rewrite Hc. reflexivity. }
  repeat split; reflexivity.
Qed.

Lemma is_color_dark_threshold_witness :
  is_color_dark (200, 100, 50)%Z = true /\ is_color_dark (100, 200, 50)%Z = false.
Proof.
  split.
  - apply (proj1 (proj2 (is_color_dark_threshold 200 100 50
                           ltac:(lia) ltac:(lia) ltac:(lia)))). reflexivity.
  - apply (proj1 (proj2 (proj2 (is_color_dark_threshold 100 200 50
                                  ltac:(lia) ltac:(lia) ltac:(lia))))). reflexivity.
Defined.

(** C7 as stated fails at the threshold.  The exact luminance of
    (0, 204, 68) is [0.587 * 204 + 0.114 * 68 = 127.5], the sum computed in
    binary64 is just below, and the colour is classified as dark. *)
Lemma is_color_dark_boundary_counterexample :
  (299 * 0 + 587 * 204 + 114 * 68 = 127500)%Z
  /\ PrimFloat.ltb (brightness (0, 204, 68)%Z) 127.5%float = true
  /\ is_color_dark (0, 204, 68)%Z = true.
Proof. repeat split; reflexivity. Qed.
#[local] Set Warnings "+inexact-float".

(** ** Binary64 arithmetic, in integers *)

Section Binary64.
Local Open Scope Z_scope.

(** *** The position of [a / b] between two integers *)

Lemma bracket_m a b : shr_m (bracket a b) = a / b.
Proof. unfold bracket. destruct (loc_of a b) as [|[]]; reflexivity. Qed.

Lemma bracket_loc a b : loc_of_shr_record (bracket a b) = loc_of a b.
Proof. unfold bracket. destruct (loc_of a b) as [|[]]; reflexivity. Qed.

(** Halving the scale. *)
Lemma div_twice (a b : Z) : 0 <= a -> 0 < b ->
  a / (2 * b) = a / b / 2 /\ a mod (2 * b) = (a / b) mod 2 * b + a mod b.
Proof.
  intros Ha Hb.
  pose proof (Z.div_mod a b ltac:(lia)) as E1.
  pose proof (Z.mod_pos_bound a b Hb) as B1.
  pose proof (Z.div_mod (a / b) 2 ltac:(lia)) as E2.
  pose proof (Z.mod_pos_bound (a / b) 2 ltac:(lia)) as B2.
  assert (a = (2 * b) * (a / b / 2) + ((a / b) mod 2 * b + a mod b)) as E by nia.
  assert (0 <= (a / b) mod 2 * b + a mod b < 2 * b) as B by nia.
  split.
  - symmetry. apply (Z.div_unique_pos a (2 * b) _ _ B E).
  - symmetry. apply (Z.mod_unique_pos a (2 * b) _ _ B E).
Qed.

Lemma xI_half p : Z.pos p~1 / 2 = Z.pos p /\ Z.pos p~1 mod 2 = 1.
Proof.
  split; symmetry.
  - apply (Z.div_unique_pos _ 2 _ 1); lia.
  - apply (Z.mod_unique_pos _ 2 (Z.pos p) 1); lia.
Qed.

Lemma xO_half p : Z.pos p~0 / 2 = Z.pos p /\ Z.pos p~0 mod 2 = 0.
Proof.
  split; symmetry.
  - apply (Z.div_unique_pos _ 2 _ 0); lia.
  - apply (Z.mod_unique_pos _ 2 (Z.pos p) 0); lia.
Qed.

Lemma shr_1_bracket (a b : Z) : 0 <= a -> 0 < b ->
  shr_1 (bracket a b) = bracket a (2 * b).
Proof.
  intros Ha Hb.
  destruct (div_twice a b Ha Hb) as [Ed Em].
  pose proof (Z.mod_pos_bound a b Hb) as B1.
  pose proof (Z.div_pos a b Ha Hb) as Hq.
  unfold bracket at 2. unfold loc_of at 1. rewrite Ed, Em.
  unfold bracket, loc_of.
  remember (a / b) as q eqn:Eq. remember (a mod b) as r eqn:Er.
  clear Eq Er Ed Em.
  assert ((2 * (1 * b + r) ?= 2 * b) = (if r =? 0 then Eq else Gt)) as C1.
  { destruct (Z.eqb_spec r 0); [apply Z.compare_eq_iff|apply Z.compare_gt_iff]; lia. }
  assert (r <> 0 -> (2 * (0 * b + r) ?= 2 * b) = Lt) as C0.
  { intros. apply Z.compare_lt_iff; lia. }
  assert ((1 * b + r =? 0) = false) as N1 by (apply Z.eqb_neq; lia).
  assert ((0 * b + r =? 0) = (r =? 0)) as N0 by (f_equal; lia).
  destruct q as [|p|p]; [| |lia].
  - change (0 / 2) with 0. change (0 mod 2) with 0. rewrite N0.
    destruct (Z.eqb_spec r 0) as [Hr|Hr]; [reflexivity|].
    rewrite (C0 Hr). destruct (2 * r ?= b); reflexivity.
  - destruct p as [p|p|].
    + destruct (xI_half p) as [-> ->]. rewrite N1, C1.
      destruct (Z.eqb_spec r 0) as [Hr|Hr]; [reflexivity|].
      destruct (2 * r ?= b); reflexivity.
    + destruct (xO_half p) as [-> ->]. rewrite N0.
      destruct (Z.eqb_spec r 0) as [Hr|Hr]; [reflexivity|].
      rewrite (C0 Hr). destruct (2 * r ?= b); reflexivity.
    + change (1 / 2) with 0. change (1 mod 2) with 1. rewrite N1, C1.
      destruct (Z.eqb_spec r 0) as [Hr|Hr]; [reflexivity|].
      destruct (2 * r ?= b); reflexivity.
Qed.

Lemma pow2_xI p : 2 ^ Z.pos p~1 = 2 * (2 ^ Z.pos p * 2 ^ Z.pos p).
Proof.
  replace (Z.pos p~1) with (1 + (Z.pos p + Z.pos p)) by lia.
  rewrite !Z.pow_add_r by lia. reflexivity.
Qed.

Lemma pow2_xO p : 2 ^ Z.pos p~0 = 2 ^ Z.pos p * 2 ^ Z.pos p.
Proof.
  replace (Z.pos p~0) with (Z.pos p + Z.pos p) by lia.
  rewrite !Z.pow_add_r by lia. reflexivity.
Qed.

Lemma iter_pos_shr_1 (p : positive) (a b : Z) : 0 <= a -> 0 < b ->
  SpecFloat.iter_pos shr_1 p (bracket a b) = bracket a (b * 2 ^ Z.pos p).
Proof.
  intros Ha. revert b. induction p as [p IH|p IH|]; intros b Hb; cbn [SpecFloat.iter_pos].
  - assert (0 < 2 ^ Z.pos p) as Hp by (apply Z.pow_pos_nonneg; lia).
    rewrite shr_1_bracket, IH, IH by nia.
    f_equal. rewrite pow2_xI. ring.
  - assert (0 < 2 ^ Z.pos p) as Hp by (apply Z.pow_pos_nonneg; lia).
    rewrite IH, IH by nia.
    f_equal. rewrite pow2_xO. ring.
  - rewrite shr_1_bracket by assumption. f_equal. change (2 ^ 1) with 2. ring.
Qed.

Lemma shr_bracket (a b e n : Z) : 0 <= a -> 0 < b -> 0 <= n ->
  shr (bracket a b) e n = (bracket a (b * 2 ^ n), e + n).
Proof.
  intros Ha Hb Hn. unfold shr. destruct n as [|p|p]; [| |lia].
  - rewrite Z.mul_1_r, Z.add_0_r. reflexivity.
  - rewrite iter_pos_shr_1 by assumption. reflexivity.
Qed.

(** *** The number of binary digits *)
Lemma digits2_pos_size (p : positive) : digits2_pos p = Pos.size p.
Proof. induction p; simpl; congruence. Qed.

Lemma Zdigits2_bounds (m : Z) : 0 < m ->
  2 ^ (Zdigits2 m - 1) <= m < 2 ^ Zdigits2 m.
Proof.
  intros Hm. destruct m as [|p|p]; try lia. cbn [Zdigits2].
  rewrite digits2_pos_size.
  pose proof (Pos.size_gt p) as Hgt. pose proof (Pos.size_le p) as Hle.
  split.
  - assert (2 * 2 ^ (Z.pos (Pos.size p) - 1) = 2 ^ Z.pos (Pos.size p)) as E.
    { rewrite <- Z.pow_succ_r by lia. f_equal. lia. }
    assert (Z.pos (2 ^ Pos.size p) <= Z.pos p~0) as H by (apply Pos2Z.pos_le_pos; exact Hle).
    rewrite Pos2Z.inj_pow in H. lia.
  - assert (Z.pos p < Z.pos (2 ^ Pos.size p)) as H by (apply Pos2Z.pos_lt_pos; exact Hgt).
    rewrite Pos2Z.inj_pow in H. exact H.
Qed.

Lemma Zdigits2_unique (m d : Z) : 2 ^ (d - 1) <= m < 2 ^ d -> 0 < d -> Zdigits2 m = d.
Proof.
  intros Hm Hd.
  assert (0 < m) as Hpos by (pose proof (Z.pow_pos_nonneg 2 (d - 1)); lia).
  pose proof (Zdigits2_bounds m Hpos) as Hb.
  assert (0 < Zdigits2 m) as Hd' by (destruct m; simpl; lia).
  destruct (Z.lt_trichotomy (Zdigits2 m) d) as [Hlt|[E|Hgt]]; [|exact E|].
  - assert (2 ^ Zdigits2 m <= 2 ^ (d - 1)) by (apply Z.pow_le_mono_r; lia). lia.
  - assert (2 ^ d <= 2 ^ (Zdigits2 m - 1)) by (apply Z.pow_le_mono_r; lia). lia.
Qed.

(** *** [rne]: to the nearest integer, ties to even *)
Lemma rne_cases (a b : Z) : 0 < b ->
  let q := a / b in let r := a mod b in
  (2 * r < b /\ rne a b = q)
  \/ (2 * r = b /\ rne a b = (if Z.even q then q else q + 1))
  \/ (2 * r > b /\ rne a b = q + 1).
Proof.
  intros Hb q r. pose proof (Z.mod_pos_bound a b Hb) as Hr. fold r in Hr.
  unfold rne, loc_of. fold q r.
  destruct (Z.eqb_spec r 0) as [E|E].
  - left. split; [lia|reflexivity].
  - destruct (Z.compare_spec (2 * r) b) as [C|C|C]; cbn [round_nearest_even].
    + right. left. split; [exact C|reflexivity].
    + left. split; [exact C|reflexivity].
    + right. right. split; [lia|reflexivity].
Qed.

Lemma rne_bounds (a b : Z) : 0 < b -> a / b <= rne a b <= a / b + 1.
Proof.
  intros Hb. destruct (rne_cases a b Hb) as [[_ ->]|[[_ ->]|[_ ->]]]; try lia.
  destruct (Z.even (a / b)); lia.
Qed.

Lemma rne_exact (a b : Z) : 0 < b -> a mod b = 0 -> rne a b = a / b.
Proof.
  intros Hb Hr. destruct (rne_cases a b Hb) as [[_ ->]|[[C _]|[C _]]]; try lia.
Qed.

Lemma div_cross_le (a b a' b' : Z) : 0 < b -> 0 < b' -> a * b' <= a' * b -> a / b <= a' / b'.
Proof.
  intros Hb Hb' Hc.
  pose proof (Z.div_mod a b ltac:(lia)). pose proof (Z.mod_pos_bound a b Hb).
  pose proof (Z.div_mod a' b' ltac:(lia)). pose proof (Z.mod_pos_bound a' b' Hb').
  destruct (Z.le_gt_cases (a / b) (a' / b')) as [|Hgt]; [assumption|exfalso].
  assert (a' / b' + 1 <= a / b) as Hq by lia.
  assert (a' * b < b' * (a' / b' + 1) * b) by nia.
  assert (b' * (a' / b' + 1) * b <= b' * (a / b) * b) by nia.
  nia.
Qed.

Lemma rne_le (a b a' b' : Z) : 0 < b -> 0 < b' -> a * b' <= a' * b -> rne a b <= rne a' b'.
Proof.
  intros Hb Hb' Hc.
  pose proof (div_cross_le a b a' b' Hb Hb' Hc) as Hq.
  pose proof (Z.div_mod a b ltac:(lia)) as Ea. pose proof (Z.mod_pos_bound a b Hb) as Ba.
  pose proof (Z.div_mod a' b' ltac:(lia)) as Ea'. pose proof (Z.mod_pos_bound a' b' Hb') as Ba'.
  pose proof (rne_bounds a b Hb) as Hr. pose proof (rne_bounds a' b' Hb') as Hr'.
  destruct (Z.lt_ge_cases (a / b) (a' / b')) as [Hlt|Hge]; [lia|].
  assert (a / b = a' / b') as Eq by lia.
  assert (a mod b * b' <= a' mod b' * b) as Hrr by nia.
  destruct (rne_cases a b Hb) as [[C ->]|[[C ->]|[C ->]]];
  destruct (rne_cases a' b' Hb') as [[C' ->]|[[C' ->]|[C' ->]]]; rewrite <- ?Eq;
    try (destruct (Z.even (a / b))); try lia; exfalso; nia.
Qed.

Lemma rne_scale (a b c : Z) : 0 < b -> 0 < c -> rne (a * c) (b * c) = rne a b.
Proof.
  intros Hb Hc. unfold rne, loc_of.
  rewrite Z.div_mul_cancel_r by lia.
  rewrite Z.mul_mod_distr_r by lia.
  assert ((a mod b * c =? 0) = (a mod b =? 0)) as ->.
  { destruct (Z.eqb_spec (a mod b) 0) as [->|N]; [reflexivity|]. apply Z.eqb_neq. nia. }
  assert ((2 * (a mod b * c) ?= b * c) = (2 * (a mod b) ?= b)) as ->; [|reflexivity].
  destruct (Z.compare_spec (2 * (a mod b)) b);
    [apply Z.compare_eq_iff|apply Z.compare_lt_iff|apply Z.compare_gt_iff]; nia.
Qed.

(** *** The rounding step shared by the operations *)
Lemma fexp_normal (z : Z) : -1021 <= z -> fexp prec emax z = z - 53.
Proof. intros Hz. unfold fexp, SpecFloat.emin, prec, emax. lia. Qed.

Lemma bracket_exact (m : Z) : shr_record_of_loc m loc_Exact = bracket m 1.
Proof. unfold bracket, loc_of. rewrite Z.mod_1_r, Z.div_1_r. reflexivity. Qed.

Lemma pow2_53 : 2 ^ 53 = 9007199254740992. Proof. reflexivity. Qed.
Lemma pow2_52 : 2 ^ 52 = 4503599627370496. Proof. reflexivity. Qed.

Lemma round_result (M0 E0 : Z) :
  2 ^ 52 <= M0 <= 2 ^ 53 -> -1074 <= E0 -> E0 + 1 <= 971 ->
  (let '(mrs, e'') := shr_fexp prec emax M0 E0 loc_Exact in
   match shr_m mrs with
   | Z0 => S754_zero false
   | Zpos m => if e'' <=? emax - prec then S754_finite false m e'' else S754_infinity false
   | Zneg _ => S754_nan
   end)
  = if M0 =? 2 ^ 53 then S754_finite false (Z.to_pos (2 ^ 52)) (E0 + 1)
    else S754_finite false (Z.to_pos M0) E0.
Proof.
  intros HM HE0 HE1. unfold shr_fexp. rewrite bracket_exact.
  destruct (Z.eqb_spec M0 (2 ^ 53)) as [->|Hne].
  - assert (Zdigits2 (2 ^ 53) = 54) as -> by reflexivity.
    rewrite fexp_normal by lia.
    replace (54 + E0 - 53 - E0) with 1 by lia.
    rewrite shr_bracket by lia. rewrite bracket_m.
    change (2 ^ 53 / (1 * 2 ^ 1)) with (2 ^ 52). change (2 ^ 52) with (Z.pos (Z.to_pos (2 ^ 52))) at 1.
    cbv iota beta.
    assert ((E0 + 1 <=? emax - prec) = true) as -> by (apply Z.leb_le; unfold emax, prec; lia).
    reflexivity.
  - assert (Zdigits2 M0 = 53) as -> by (apply Zdigits2_unique; [change (53 - 1) with 52|]; lia).
    rewrite fexp_normal by lia.
    replace (53 + E0 - 53 - E0) with 0 by lia.
    rewrite shr_bracket by lia. rewrite bracket_m, Z.mul_1_l, Z.add_0_r.
    change (2 ^ 0) with 1. rewrite Z.div_1_r.
    destruct M0 as [|m|m]; try (pose proof pow2_52; lia).
    assert ((E0 <=? emax - prec) = true) as -> by (apply Z.leb_le; unfold emax, prec; lia).
    reflexivity.
Qed.

Lemma binary_round_aux_normal (a b e : Z) :
  0 < b -> 2 ^ 52 <= a / b -> -1074 <= e ->
  let n := Zdigits2 (a / b) - 53 in
  e + n + 1 <= 971 ->
  binary_round_aux prec emax false (a / b) e (loc_of a b)
  = let M0 := rne a (b * 2 ^ n) in
    if M0 =? 2 ^ 53 then S754_finite false (Z.to_pos (2 ^ 52)) (e + n + 1)
    else S754_finite false (Z.to_pos M0) (e + n).
Proof.
  intros Hb Hq He n Hn.
  assert (0 < a / b) as Hqpos by (pose proof pow2_52; lia).
  assert (0 <= a) as Ha.
  { destruct (Z.lt_ge_cases a 0) as [Hneg|]; [|assumption].
    pose proof (Z.div_lt_upper_bound a b 0 Hb ltac:(lia)). lia. }
  pose proof (Zdigits2_bounds (a / b) Hqpos) as Hd.
  assert (53 <= Zdigits2 (a / b)) as Hd53.
  { destruct (Z.lt_ge_cases (Zdigits2 (a / b)) 53) as [Hlt|]; [|assumption].
    assert (2 ^ Zdigits2 (a / b) <= 2 ^ 52) by (apply Z.pow_le_mono_r; lia). lia. }
  assert (0 <= n) as Hn0 by (unfold n; lia).
  unfold binary_round_aux.
  assert (shr_fexp prec emax (a / b) e (loc_of a b) = (bracket a (b * 2 ^ n), e + n)) as ->.
  { unfold shr_fexp. fold (bracket a b). rewrite fexp_normal by lia.
    replace (Zdigits2 (a / b) + e - 53 - e) with n by (unfold n; lia).
    apply shr_bracket; assumption. }
  rewrite bracket_m, bracket_loc. fold (rne a (b * 2 ^ n)).
  assert (0 < 2 ^ n) as Hpn by (apply Z.pow_pos_nonneg; lia).
  assert (2 ^ 52 <= a / (b * 2 ^ n) < 2 ^ 53) as Hu.
  { rewrite <- Z.div_div by lia.
    assert (2 ^ (Zdigits2 (a / b) - 1) = 2 ^ 52 * 2 ^ n) as E1.
    { rewrite <- Z.pow_add_r by lia. f_equal. unfold n. lia. }
    assert (2 ^ Zdigits2 (a / b) = 2 ^ 53 * 2 ^ n) as E2.
    { rewrite <- Z.pow_add_r by lia. f_equal. unfold n. lia. }
    split.
    - apply Z.div_le_lower_bound; lia.
    - apply Z.div_lt_upper_bound; lia. }
  pose proof (rne_bounds a (b * 2 ^ n) ltac:(nia)) as Hr.
  apply round_result; lia.
Qed.

(** *** [RN]: to 53 significant bits *)

Lemma Zdigits2_ge53 (q : Z) : 2 ^ 52 <= q -> 53 <= Zdigits2 q.
Proof.
  intros Hq. assert (0 < q) as Hpos by (pose proof pow2_52; lia).
  pose proof (Zdigits2_bounds q Hpos) as Hd.
  destruct (Z.lt_ge_cases (Zdigits2 q) 53) as [Hlt|]; [|assumption].
  assert (2 ^ Zdigits2 q <= 2 ^ 52) by (apply Z.pow_le_mono_r; lia). lia.
Qed.

Lemma Zdigits2_le (q q' : Z) : 0 < q -> q <= q' -> Zdigits2 q <= Zdigits2 q'.
Proof.
  intros Hq Hle.
  pose proof (Zdigits2_bounds q Hq) as Hd. pose proof (Zdigits2_bounds q' ltac:(lia)) as Hd'.
  destruct (Z.le_gt_cases (Zdigits2 q) (Zdigits2 q')) as [|Hgt]; [assumption|].
  assert (2 ^ Zdigits2 q' <= 2 ^ (Zdigits2 q - 1)) by (apply Z.pow_le_mono_r; lia). lia.
Qed.

(** The integer part of the scaled quotient has exactly 53 bits. *)
Lemma RN_mantissa (N D : Z) : 0 < D -> 2 ^ 52 <= N / D ->
  let t := Zdigits2 (N / D) - 53 in
  0 <= t /\ 2 ^ 52 <= N / (D * 2 ^ t) < 2 ^ 53
  /\ 2 ^ 52 <= rne N (D * 2 ^ t) <= 2 ^ 53.
Proof.
  intros HD Hq t.
  assert (0 < N / D) as Hqpos by (pose proof pow2_52; lia).
  pose proof (Zdigits2_bounds (N / D) Hqpos) as Hd.
  pose proof (Zdigits2_ge53 _ Hq) as Hd53.
  assert (0 <= t) as Ht by (unfold t; lia).
  assert (0 < 2 ^ t) as Hpt by (apply Z.pow_pos_nonneg; lia).
  assert (2 ^ 52 <= N / (D * 2 ^ t) < 2 ^ 53) as Hu.
  { rewrite <- Z.div_div by lia.
    assert (2 ^ (Zdigits2 (N / D) - 1) = 2 ^ 52 * 2 ^ t) as E1.
    { rewrite <- Z.pow_add_r by lia. f_equal. unfold t. lia. }
    assert (2 ^ Zdigits2 (N / D) = 2 ^ 53 * 2 ^ t) as E2.
    { rewrite <- Z.pow_add_r by lia. f_equal. unfold t. lia. }
    split.
    - apply Z.div_le_lower_bound; lia.
    - apply Z.div_lt_upper_bound; lia. }
  split; [exact Ht|]. split; [exact Hu|].
  pose proof (rne_bounds N (D * 2 ^ t) ltac:(nia)). lia.
Qed.

Lemma RN_le (N D N' D' : Z) :
  0 < D -> 0 < D' -> 2 ^ 52 <= N / D -> N * D' <= N' * D -> RN N D <= RN N' D'.
Proof.
  intros HD HD' Hq Hc.
  pose proof (div_cross_le N D N' D' HD HD' Hc) as Hqq.
  assert (2 ^ 52 <= N' / D') as Hq' by lia.
  destruct (RN_mantissa N D HD Hq) as (Ht & Hu & Hr).
  destruct (RN_mantissa N' D' HD' Hq') as (Ht' & Hu' & Hr').
  assert (0 < N / D) as Hqpos by (pose proof pow2_52; lia).
  pose proof (Zdigits2_le _ _ Hqpos Hqq) as Hdd.
  unfold RN.
  set (t := Zdigits2 (N / D) - 53) in *. set (t' := Zdigits2 (N' / D') - 53) in *.
  assert (0 < 2 ^ t) as Hpt by (apply Z.pow_pos_nonneg; lia).
  assert (0 < 2 ^ t') as Hpt' by (apply Z.pow_pos_nonneg; lia).
  destruct (Z.eq_dec t t') as [E|NE].
  - rewrite <- E in *. apply Z.mul_le_mono_nonneg_r; [lia|].
    apply rne_le; nia.
  - assert (t + 1 <= t') as Hlt by (unfold t, t' in *; lia).
    assert (2 ^ (t + 1) <= 2 ^ t') as Hp by (apply Z.pow_le_mono_r; lia).
    rewrite Z.pow_add_r in Hp by lia. change (2 ^ 1) with 2 in Hp.
    pose proof pow2_52. pose proof pow2_53. nia.
Qed.

Lemma Zdigits2_scale (a b j : Z) : 0 < b -> 0 < a / b -> 0 <= j ->
  Zdigits2 (a * 2 ^ j / b) = Zdigits2 (a / b) + j.
Proof.
  intros Hb Hq Hj.
  pose proof (Zdigits2_bounds (a / b) Hq) as Hd.
  assert (0 < Zdigits2 (a / b)) as Hdpos by (destruct (a / b); simpl in *; lia).
  assert (0 < 2 ^ j) as Hpj by (apply Z.pow_pos_nonneg; lia).
  pose proof (Z.div_mod a b ltac:(lia)) as Ea. pose proof (Z.mod_pos_bound a b Hb) as Ba.
  apply Zdigits2_unique; [|lia].
  replace (Zdigits2 (a / b) + j - 1) with (Zdigits2 (a / b) - 1 + j) by lia.
  rewrite !Z.pow_add_r by lia.
  remember (2 ^ (Zdigits2 (a / b) - 1)) as P. remember (2 ^ Zdigits2 (a / b)) as P'.
  remember (2 ^ j) as Q. remember (a / b) as q. remember (a mod b) as r.
  assert (b * P <= a) as H1 by nia.
  assert (a < b * P') as H2 by nia.
  split.
  - apply Z.div_le_lower_bound; [lia|]. nia.
  - apply Z.div_lt_upper_bound; [lia|]. nia.
Qed.

Lemma RN_scale (N D c : Z) : 0 < D -> 0 < c -> 2 ^ 52 <= N / D ->
  RN (N * c) (D * c) = RN N D.
Proof.
  intros HD Hc Hq. unfold RN. rewrite Z.div_mul_cancel_r by lia.
  destruct (RN_mantissa N D HD Hq) as (Ht & _).
  set (t := Zdigits2 (N / D) - 53) in *.
  assert (0 < 2 ^ t) as Hpt by (apply Z.pow_pos_nonneg; lia).
  replace (D * c * 2 ^ t) with (D * 2 ^ t * c) by ring.
  rewrite rne_scale by nia. reflexivity.
Qed.

(** [RN] at a power-of-two scale. *)
Lemma RN_pow2 (a b j : Z) : 0 < b -> 2 ^ 52 <= a / b -> 0 <= j ->
  RN (a * 2 ^ j) b = rne a (b * 2 ^ (Zdigits2 (a / b) - 53)) * 2 ^ (Zdigits2 (a / b) - 53 + j).
Proof.
  intros Hb Hq Hj.
  assert (0 < a / b) as Hqpos by (pose proof pow2_52; lia).
  destruct (RN_mantissa a b Hb Hq) as (Ht & _).
  unfold RN. rewrite Zdigits2_scale by lia.
  set (n := Zdigits2 (a / b) - 53) in *.
  replace (Zdigits2 (a / b) + j - 53) with (n + j) by (unfold n; lia).
  assert (0 < 2 ^ n) as Hpn by (apply Z.pow_pos_nonneg; lia).
  assert (0 < 2 ^ j) as Hpj by (apply Z.pow_pos_nonneg; lia).
  rewrite (Z.pow_add_r 2 n j) by lia.
  replace (b * (2 ^ n * 2 ^ j)) with (b * 2 ^ n * 2 ^ j) by ring.
  rewrite rne_scale by nia. reflexivity.
Qed.

(** *** Positive normal numbers and their value *)

Lemma pnormal_weaken (f : spec_float) (lo hi lo' hi' : Z) :
  pnormal f lo hi -> lo' <= lo -> hi <= hi' -> pnormal f lo' hi'.
Proof. intros (m & e & -> & Hm & He) Hlo Hhi. exists m, e. repeat split; lia. Qed.

Lemma round_aux_sval (a b e : Z) :
  0 < b -> 2 ^ 52 <= a / b -> -1074 <= e ->
  let n := Zdigits2 (a / b) - 53 in
  e + n + 1 <= 971 ->
  pnormal (binary_round_aux prec emax false (a / b) e (loc_of a b)) (e + n) (e + n + 1)
  /\ sval (binary_round_aux prec emax false (a / b) e (loc_of a b))
     = RN (a * 2 ^ (e + 1074)) b.
Proof.
  intros Hb Hq He n Hn.
  rewrite (binary_round_aux_normal a b e Hb Hq He Hn). cbv zeta.
  rewrite RN_pow2 by lia.
  destruct (RN_mantissa a b Hb Hq) as (Ht & Hu & Hr). fold n in Ht, Hu, Hr. fold n.
  destruct (Z.eqb_spec (rne a (b * 2 ^ n)) (2 ^ 53)) as [E|NE].
  - split.
    + eexists _, _. split; [reflexivity|]. rewrite Z2Pos.id by reflexivity.
      pose proof pow2_52; pose proof pow2_53. lia.
    + cbn [sval]. rewrite Z2Pos.id by reflexivity. rewrite E.
      rewrite <- !Z.pow_add_r by lia. f_equal. lia.
  - split.
    + eexists _, _. split; [reflexivity|].
      rewrite Z2Pos.id by (pose proof pow2_52; lia). lia.
    + cbn [sval]. rewrite Z2Pos.id by (pose proof pow2_52; lia).
      do 2 f_equal. lia.
Qed.

(** *** Division *)
Lemma new_location_loc_of (a b : Z) : 0 < b ->
  new_location b (a mod b) = loc_of a b.
Proof.
  intros Hb. pose proof (Z.mod_pos_bound a b Hb) as Hr.
  unfold new_location, new_location_even, new_location_odd, loc_of.
  destruct (Z.even b) eqn:Ev; [reflexivity|].
  destruct (Z.eqb_spec (a mod b) 0); [reflexivity|]. f_equal.
  assert (Z.odd b = true) as Hodd by (rewrite <- Z.negb_even, Ev; reflexivity).
  apply Z.odd_spec in Hodd as [k Hk].
  destruct (Z.compare_spec (2 * (a mod b) + 1) b);
    destruct (Z.compare_spec (2 * (a mod b)) b); try reflexivity; lia.
Qed.

Lemma SFdiv_normal (m1 m2 : positive) (e1 e2 : Z) :
  2 ^ 52 <= Z.pos m1 < 2 ^ 53 -> 2 ^ 52 <= Z.pos m2 < 2 ^ 53 ->
  -1074 <= e1 <= 971 -> -1074 <= e2 <= 971 ->
  -1021 <= e1 - e2 <= 1020 ->
  let f1 := S754_finite false m1 e1 in
  let f2 := S754_finite false m2 e2 in
  pnormal (SF64div f1 f2) (e1 - e2 - 53) (e1 - e2 - 51)
  /\ sval (SF64div f1 f2) = RN (sval f1 * 2 ^ 1074) (sval f2).
Proof.
  intros H1 H2 He1 He2 Hd f1 f2.
  unfold SF64div, SFdiv, f1, f2, SFdiv_core_binary.
  assert (Zdigits2 (Z.pos m1) = 53) as -> by (apply Zdigits2_unique; [change (53 - 1) with 52|]; lia).
  assert (Zdigits2 (Z.pos m2) = 53) as -> by (apply Zdigits2_unique; [change (53 - 1) with 52|]; lia).
  rewrite fexp_normal by lia.
  replace (Z.min (53 + e1 - (53 + e2) - 53) (e1 - e2)) with (e1 - e2 - 53) by lia.
  replace (e1 - e2 - (e1 - e2 - 53)) with 53 by lia.
  rewrite Z.shiftl_mul_pow2 by lia.
  unfold Z.div_eucl at 1. fold (Z.div_eucl (Z.pos m1 * 2 ^ 53) (Z.pos m2)).
  pose proof (Z.div_eucl_eq (Z.pos m1 * 2 ^ 53) (Z.pos m2) ltac:(lia)) as _.
  assert (Z.div_eucl (Z.pos m1 * 2 ^ 53) (Z.pos m2)
          = ((Z.pos m1 * 2 ^ 53) / Z.pos m2, (Z.pos m1 * 2 ^ 53) mod Z.pos m2)) as ->.
  { unfold Z.div, Z.modulo. destruct (Z.div_eucl _ _). reflexivity. }
  cbn [xorb]. rewrite new_location_loc_of by lia.
  set (a := Z.pos m1 * 2 ^ 53). set (b := Z.pos m2).
  assert (2 ^ 52 <= a / b < 2 ^ 54) as Hq.
  { unfold a, b. pose proof pow2_52; pose proof pow2_53.
    change (2 ^ 54) with 18014398509481984. split.
    - apply Z.div_le_lower_bound; nia.
    - apply Z.div_lt_upper_bound; nia. }
  assert (Zdigits2 (a / b) <= 54) as Hdig.
  { assert (0 < a / b) by (pose proof pow2_52; lia).
    pose proof (Zdigits2_bounds (a / b) ltac:(lia)).
    destruct (Z.le_gt_cases (Zdigits2 (a / b)) 54); [assumption|].
    assert (2 ^ 54 <= 2 ^ (Zdigits2 (a / b) - 1)) by (apply Z.pow_le_mono_r; lia). lia. }
  assert (53 <= Zdigits2 (a / b)) as Hdig' by (apply Zdigits2_ge53; lia).
  destruct (round_aux_sval a b (e1 - e2 - 53)) as [Hn Hs]; try lia.
  split; [apply (pnormal_weaken _ _ _ _ _ Hn); lia|]. rewrite Hs. cbn [sval]. unfold a, b.
  replace (Z.pos m1 * 2 ^ 53 * 2 ^ (e1 - e2 - 53 + 1074)) with (Z.pos m1 * 2 ^ (e1 - e2 + 1074)).
  2:{ rewrite <- Z.mul_assoc, <- Z.pow_add_r by lia. do 2 f_equal. lia. }
  assert (0 < 2 ^ (e2 + 1074)) as Hc by (apply Z.pow_pos_nonneg; lia).
  rewrite <- (RN_scale (Z.pos m1 * 2 ^ (e1 - e2 + 1074)) (Z.pos m2) (2 ^ (e2 + 1074))).
  - f_equal. rewrite <- !Z.mul_assoc, <- !Z.pow_add_r by lia. do 2 f_equal. lia.
  - lia.
  - exact Hc.
  - assert (0 < 2 ^ (e1 - e2 + 1074)) by (apply Z.pow_pos_nonneg; lia).
    assert (2 ^ 53 <= 2 ^ (e1 - e2 + 1074)) by (apply Z.pow_le_mono_r; lia).
    pose proof pow2_52; pose proof pow2_53. apply Z.div_le_lower_bound; nia.
Qed.

(** *** Multiplication *)
Lemma SFmul_normal (m1 m2 : positive) (e1 e2 : Z) :
  2 ^ 52 <= Z.pos m1 < 2 ^ 53 -> 2 ^ 52 <= Z.pos m2 < 2 ^ 53 ->
  -1074 <= e1 -> -1074 <= e2 ->
  -1074 <= e1 + e2 -> e1 + e2 + 54 <= 971 ->
  let f1 := S754_finite false m1 e1 in
  let f2 := S754_finite false m2 e2 in
  pnormal (SF64mul f1 f2) (e1 + e2 + 52) (e1 + e2 + 54)
  /\ sval (SF64mul f1 f2) = RN (sval f1 * sval f2) (2 ^ 1074).
Proof.
  intros H1 H2 He1 He2 Hlo Hhi f1 f2.
  unfold SF64mul, SFmul, f1, f2. cbn [xorb].
  set (a := Z.pos (m1 * m2)).
  assert (a = Z.pos m1 * Z.pos m2) as Ea by (unfold a; lia).
  pose proof pow2_52; pose proof pow2_53.
  assert (2 ^ 104 <= a < 2 ^ 106) as Ha.
  { change (2 ^ 104) with (2 ^ 52 * 2 ^ 52). change (2 ^ 106) with (2 ^ 53 * 2 ^ 53). nia. }
  replace (binary_round_aux prec emax false a (e1 + e2) loc_Exact)
    with (binary_round_aux prec emax false (a / 1) (e1 + e2) (loc_of a 1)).
  2:{ unfold loc_of. rewrite Z.mod_1_r, Z.div_1_r. reflexivity. }
  assert (2 ^ 52 <= a / 1) as Hq.
  { rewrite Z.div_1_r. assert (2 ^ 52 <= 2 ^ 104) by (apply Z.pow_le_mono_r; lia). lia. }
  assert (Zdigits2 (a / 1) <= 106) as Hdig.
  { rewrite Z.div_1_r. pose proof (Zdigits2_bounds a ltac:(lia)).
    destruct (Z.le_gt_cases (Zdigits2 a) 106); [assumption|].
    assert (2 ^ 106 <= 2 ^ (Zdigits2 a - 1)) by (apply Z.pow_le_mono_r; lia). lia. }
  assert (105 <= Zdigits2 (a / 1)) as Hdig'.
  { rewrite Z.div_1_r. pose proof (Zdigits2_bounds a ltac:(lia)).
    destruct (Z.le_gt_cases 105 (Zdigits2 a)); [assumption|].
    assert (2 ^ Zdigits2 a <= 2 ^ 104) by (apply Z.pow_le_mono_r; lia). lia. }
  destruct (round_aux_sval a 1 (e1 + e2)) as [Hn Hs]; try lia.
  split; [apply (pnormal_weaken _ _ _ _ _ Hn); lia|]. rewrite Hs. cbn [sval].
  assert (0 < 2 ^ 1074) as Hc by (apply Z.pow_pos_nonneg; lia).
  assert (0 < 2 ^ (e1 + e2 + 1074)) as Hc' by (apply Z.pow_pos_nonneg; lia).
  rewrite <- (RN_scale (a * 2 ^ (e1 + e2 + 1074)) 1 (2 ^ 1074)); try lia.
  - rewrite Z.mul_1_l. f_equal. rewrite Ea.
    assert (2 ^ (e1 + 1074) * 2 ^ (e2 + 1074) = 2 ^ (e1 + e2 + 1074) * 2 ^ 1074) as E.
    { rewrite <- !Z.pow_add_r by lia. f_equal. lia. }
    assert (Z.pos m1 * 2 ^ (e1 + 1074) * (Z.pos m2 * 2 ^ (e2 + 1074))
            = Z.pos m1 * Z.pos m2 * (2 ^ (e1 + 1074) * 2 ^ (e2 + 1074))) as -> by ring.
    rewrite E. ring.
  - rewrite Z.div_1_r.
    assert (2 ^ 52 <= 2 ^ 104) by (apply Z.pow_le_mono_r; lia). nia.
Qed.

(** *** Conversion of an [int] below [2^53] *)
Lemma iter_xO_pow (k m : positive) : Z.pos (Pos.iter xO m k) = Z.pos m * 2 ^ Z.pos k.
Proof.
  induction k as [|k IH] using Pos.peano_ind.
  - cbn [Pos.iter]. change (2 ^ 1) with 2. lia.
  - rewrite Pos.iter_succ, Pos2Z.inj_xO, IH, Pos2Z.inj_succ, Z.pow_succ_r by lia. ring.
Qed.

Lemma binary_normalize_int (z : Z) : 0 < z < 2 ^ 53 ->
  pnormal (binary_normalize prec emax z 0 false) (-52) 0
  /\ sval (binary_normalize prec emax z 0 false) = z * 2 ^ 1074.
Proof.
  intros Hz. destruct z as [|p|p]; try lia. cbn [binary_normalize]. unfold binary_round.
  pose proof (Zdigits2_bounds (Z.pos p) ltac:(lia)) as Hd. cbn [Zdigits2] in Hd.
  remember (Z.pos (digits2_pos p)) as d eqn:Ed.
  assert (1 <= d <= 53) as Hd53.
  { split; [lia|].
    destruct (Z.le_gt_cases d 53); [assumption|].
    assert (2 ^ 53 <= 2 ^ (d - 1)) by (apply Z.pow_le_mono_r; lia). lia. }
  rewrite fexp_normal by lia. unfold shl_align.
  replace (d + 0 - 53 - 0) with (d - 53) by lia.
  assert (exists a e, (match d - 53 with
                       | Z.neg k => (Pos.iter xO p k, d + 0 - 53)
                       | _ => (p, 0)
                       end) = (a, e)
                      /\ Z.pos a = Z.pos p * 2 ^ (53 - d) /\ e = d - 53) as (a & e & -> & Ea & ->).
  { destruct (d - 53) as [|k|k] eqn:Ek; try lia.
    - exists p, 0. replace (53 - d) with 0 by lia. rewrite Z.mul_1_r. repeat split; lia.
    - eexists _, _. split; [reflexivity|]. split; [|lia].
      rewrite iter_xO_pow. do 2 f_equal. lia. }
  assert (2 ^ 52 <= Z.pos a < 2 ^ 53) as Ha.
  { rewrite Ea. assert (0 < 2 ^ (53 - d)) by (apply Z.pow_pos_nonneg; lia).
    assert (2 ^ (d - 1) * 2 ^ (53 - d) = 2 ^ 52) as E1 by (rewrite <- Z.pow_add_r by lia; f_equal; lia).
    assert (2 ^ d * 2 ^ (53 - d) = 2 ^ 53) as E2 by (rewrite <- Z.pow_add_r by lia; f_equal; lia).
    nia. }
  replace (binary_round_aux prec emax false (Z.pos a) (d - 53) loc_Exact)
    with (binary_round_aux prec emax false (Z.pos a / 1) (d - 53) (loc_of (Z.pos a) 1)).
  2:{ unfold loc_of. rewrite Z.mod_1_r, Z.div_1_r. reflexivity. }
  assert (Zdigits2 (Z.pos a / 1) = 53) as Hdig.
  { rewrite Z.div_1_r. apply Zdigits2_unique; [change (53 - 1) with 52|]; lia. }
  destruct (round_aux_sval (Z.pos a) 1 (d - 53)) as [Hn Hs];
    try (rewrite ?Hdig; rewrite ?Z.div_1_r; lia).
  split.
  { destruct Hn as (m' & e' & E' & Hm' & He'). exists m', e'.
    split; [exact E'|]. split; [exact Hm'|].
    assert (Zdigits2 (Z.pos a / 1) - 53 = 0) as E0 by lia.
    (* the mantissa already has 53 bits: no carry *)
    cbv zeta in He'. rewrite E0 in He'.
    rewrite (binary_round_aux_normal (Z.pos a) 1 (d - 53)) in E'
      by (rewrite ?Hdig; rewrite ?Z.div_1_r; lia).
    cbv zeta in E'. rewrite Hdig in E'. change (53 - 53) with 0 in E'.
    change (2 ^ 0) with 1 in E'. rewrite Z.mul_1_r in E'.
    rewrite rne_exact, Z.div_1_r in E' by (rewrite ?Z.mod_1_r; lia).
    assert ((Z.pos a =? 2 ^ 53) = false) as N by (apply Z.eqb_neq; lia).
    rewrite N in E'. injection E' as Em Ee. lia. }
  rewrite Hs.
  rewrite RN_pow2 by (rewrite ?Z.div_1_r; lia). rewrite Hdig.
  change (53 - 53) with 0. change (2 ^ 0) with 1. rewrite Z.add_0_l.
  rewrite rne_exact by (rewrite ?Z.mod_1_r; lia).
  rewrite Z.div_1_r, Ea, <- Z.mul_assoc, <- Z.pow_add_r by lia.
  do 2 f_equal. lia.
Qed.

(** *** The operations on [float] *)

Lemma float_of_int_normal (z : Z) : 0 < z < 2 ^ 53 ->
  fnormal (float_of_int z) (-52) 0 /\ fval (float_of_int z) = z * 2 ^ 1074.
Proof.
  intros Hz. unfold fnormal, fval. destruct z as [|p|p]; try lia. cbn [float_of_int].
  rewrite of_uint63_spec, of_Z_spec.
  rewrite Z.mod_small.
  - apply binary_normalize_int. exact Hz.
  - pose proof pow2_53. change wB with 9223372036854775808. lia.
Qed.

Lemma float_div_normal (x y : float) (lo1 hi1 lo2 hi2 : Z) :
  fnormal x lo1 hi1 -> fnormal y lo2 hi2 ->
  -1074 <= lo1 -> hi1 <= 971 -> -1074 <= lo2 -> hi2 <= 971 ->
  -1021 <= lo1 - hi2 -> hi1 - lo2 <= 1020 ->
  fnormal (x / y)%float (lo1 - hi2 - 53) (hi1 - lo2 - 51)
  /\ fval (x / y)%float = RN (fval x * 2 ^ 1074) (fval y).
Proof.
  intros (m1 & e1 & E1 & Hm1 & He1) (m2 & e2 & E2 & Hm2 & He2) Hlo1 Hhi1 Hlo2 Hhi2 Hd1 Hd2.
  unfold fnormal, fval. rewrite FloatAxioms.div_spec, E1, E2.
  destruct (SFdiv_normal m1 m2 e1 e2) as [Hn Hs]; try lia.
  split; [apply (pnormal_weaken _ _ _ _ _ Hn); lia|exact Hs].
Qed.

Lemma float_mul_normal (x y : float) (lo1 hi1 lo2 hi2 : Z) :
  fnormal x lo1 hi1 -> fnormal y lo2 hi2 ->
  -1074 <= lo1 -> -1074 <= lo2 -> -1074 <= lo1 + lo2 -> hi1 + hi2 + 54 <= 971 ->
  fnormal (x * y)%float (lo1 + lo2 + 52) (hi1 + hi2 + 54)
  /\ fval (x * y)%float = RN (fval x * fval y) (2 ^ 1074).
Proof.
  intros (m1 & e1 & E1 & Hm1 & He1) (m2 & e2 & E2 & Hm2 & He2) Hlo1 Hlo2 Hlo Hhi.
  unfold fnormal, fval. rewrite FloatAxioms.mul_spec, E1, E2.
  destruct (SFmul_normal m1 m2 e1 e2) as [Hn Hs]; try lia.
  split; [apply (pnormal_weaken _ _ _ _ _ Hn); lia|exact Hs].
Qed.

Lemma float_add_zero (x : float) (lo hi : Z) :
  fnormal x lo hi -> (float_of_int 0 + x)%float = x.
Proof.
  intros (m & e & E & _). apply Prim2SF_inj. rewrite FloatAxioms.add_spec, E. reflexivity.
Qed.

Lemma int_of_float_normal (x : float) (lo hi : Z) :
  fnormal x lo hi -> -1074 <= lo ->
  int_of_float x = Some (fval x / 2 ^ 1074).
Proof.
  intros (m & e & E & Hm & He) Hlo. unfold int_of_float, fval. rewrite E. cbn [sval].
  f_equal. destruct e as [|p|p].
  - rewrite Z.add_0_l, Z.div_mul; [reflexivity|]. apply Z.pow_nonzero; lia.
  - rewrite Z.pow_add_r, Z.mul_assoc, Z.div_mul by (try apply Z.pow_nonzero; lia).
    reflexivity.
  - assert (0 < 2 ^ (Z.neg p + 1074)) as Hc by (apply Z.pow_pos_nonneg; lia).
    assert (2 ^ 1074 = 2 ^ Z.pos p * 2 ^ (Z.neg p + 1074)) as ->.
    { rewrite <- Z.pow_add_r by lia. f_equal. lia. }
    rewrite Z.div_mul_cancel_r by (try apply Z.pow_nonzero; lia). reflexivity.
Qed.

(** *** The error of one rounding *)
Lemma rne_error (a b : Z) : 0 < b ->
  2 * a - b <= 2 * (rne a b * b) <= 2 * a + b.
Proof.
  intros Hb. pose proof (Z.div_mod a b ltac:(lia)) as Hdm.
  pose proof (Z.mod_pos_bound a b Hb) as Hr.
  destruct (rne_cases a b Hb) as [[H1 ->]|[[H1 ->]|[H1 ->]]].
  - nia.
  - destruct (Z.even (a / b)); nia.
  - nia.
Qed.

Lemma RN_error (N D : Z) : 0 < D -> 2 ^ 52 <= N / D ->
  (2 ^ 53 - 1) * N <= 2 ^ 53 * (RN N D * D) <= (2 ^ 53 + 1) * N.
Proof.
  intros HD Hq. destruct (RN_mantissa N D HD Hq) as (Ht & Hm & _).
  unfold RN. set (t := Zdigits2 (N / D) - 53) in *.
  assert (0 < 2 ^ t) as Hp by (apply Z.pow_pos_nonneg; lia).
  assert (0 < D * 2 ^ t) as Hb by nia.
  pose proof (rne_error N (D * 2 ^ t) Hb) as He.
  assert (2 ^ 52 * (D * 2 ^ t) <= N) as Hlow.
  { pose proof (Z.mul_div_le N (D * 2 ^ t) Hb). nia. }
  replace (rne N (D * 2 ^ t) * 2 ^ t * D) with (rne N (D * 2 ^ t) * (D * 2 ^ t)) by ring.
  change (2 ^ 53) with (2 * 2 ^ 52). lia.
Qed.

Lemma RN_exact (m j : Z) : 0 <= j -> 2 ^ 52 <= m * 2 ^ j -> m < 2 ^ 53 ->
  RN (m * 2 ^ j) 1 = m * 2 ^ j.
Proof.
  intros Hj Hlo Hhi. unfold RN. rewrite Z.div_1_r, Z.mul_1_l.
  assert (0 < m * 2 ^ j) as Hpos by (pose proof pow2_52; lia).
  pose proof (Zdigits2_bounds _ Hpos) as Hd.
  pose proof (Zdigits2_ge53 _ Hlo) as H53.
  set (d := Zdigits2 (m * 2 ^ j)) in *.
  assert (d - 53 <= j) as Htj.
  { assert (2 ^ (d - 1) < 2 ^ (53 + j)) as Hlt.
    { rewrite (Z.pow_add_r 2 53 j) by lia.
      assert (0 < 2 ^ j) by (apply Z.pow_pos_nonneg; lia). nia. }
    apply Z.pow_lt_mono_r_iff in Hlt; lia. }
  assert (m * 2 ^ j = m * 2 ^ (j - (d - 53)) * 2 ^ (d - 53)) as E.
  { rewrite <- Z.mul_assoc, <- Z.pow_add_r by lia. do 2 f_equal. lia. }
  rewrite E at 1.
  replace (2 ^ (d - 53)) with (1 * 2 ^ (d - 53)) at 2 by ring.
  rewrite rne_scale by (try apply Z.pow_pos_nonneg; lia).
  rewrite rne_exact by (rewrite ?Z.mod_1_r; lia).
  rewrite Z.div_1_r. symmetry. exact E.
Qed.

Lemma RN_shift (a b j : Z) : 0 < b -> 2 ^ 52 <= a / b -> 0 <= j ->
  RN (a * 2 ^ j) b = RN a b * 2 ^ j.
Proof.
  intros Hb Hq Hj. rewrite RN_pow2 by assumption.
  destruct (RN_mantissa a b Hb Hq) as (Ht & _). cbv zeta in Ht.
  unfold RN. rewrite Z.pow_add_r by lia. ring.
Qed.

(** *** The ramp from black to white *)

(** The levels [k] for which [255 * y / H] is the integer [k] itself: the
    quotient is then [k / 255] rounded, and the product does not fall
    below [k]. *)
Lemma ramp_exact_levels :
  forallb ramp_exact_ok (List.map Z.of_nat (seq 1 254)) = true.
Proof. vm_compute. reflexivity. Qed.

Lemma unit_1074_pos : 2 ^ 53 * 2 ^ 53 < unit_1074.
Proof. unfold unit_1074. rewrite <- Z.pow_add_r by lia. apply Z.pow_lt_mono_r; lia. Qed.

(** Two roundings move [255 * y / H] by less than [2^-44], which is not
    enough to cross an integer when [H <= 2^44]. *)
Lemma ramp_value_floor (H y : Z) :
  1 <= y < H -> H <= 2 ^ 44 ->
  ramp_value H y / unit_1074 = 255 * y / H.
Proof.
  intros Hy HH. pose proof unit_1074_pos as HU. pose proof pow2_53 as P53.
  pose proof pow2_52 as P52.
  assert (2 ^ 44 = 17592186044416) as P44 by reflexivity.
  assert (2 ^ 45 = 35184372088832) as P45 by reflexivity.
  set (U := unit_1074) in *.
  assert (2 ^ 52 <= y * U / H) as HqA.
  { apply Z.div_le_lower_bound; nia. }
  pose proof (RN_error (y * U) H ltac:(lia) HqA) as HeA.
  destruct (RN_mantissa (y * U) H ltac:(lia) HqA) as (_ & _ & HmA).
  unfold ramp_value. fold U. set (R := RN (y * U) H) in *.
  assert (2 ^ 52 <= R) as HR.
  { unfold R, RN. cbv zeta in HmA.
    destruct (RN_mantissa (y * U) H ltac:(lia) HqA) as (Ht & _ & _). cbv zeta in Ht.
    assert (0 < 2 ^ (Zdigits2 (y * U / H) - 53)) by (apply Z.pow_pos_nonneg; lia). nia. }
  set (k := 255 * y / H).
  pose proof (Z.div_mod (255 * y) H ltac:(lia)) as Hdm. fold k in Hdm.
  pose proof (Z.mod_pos_bound (255 * y) H ltac:(lia)) as Hf.
  set (f := (255 * y) mod H) in *.
  assert (0 <= k <= 254) as Hk.
  { split; [apply Z.div_pos; lia|].
    assert (k < 255); [apply Z.div_lt_upper_bound; lia|lia]. }
  assert (2 ^ 52 <= 255 * R / 1) as HqB by (rewrite Z.div_1_r; lia).
  (* upper bound through the float just below k + 1 *)
  assert (RN (255 * R) 1 <= ((k + 1) * 2 ^ 45 - 1) * 2 ^ 1029) as Hup.
  { assert (2 ^ 52 <= 2 ^ 1029) as H1029' by (apply Z.pow_le_mono_r; lia).
    rewrite <- (RN_exact ((k + 1) * 2 ^ 45 - 1) 1029) by nia.
    apply RN_le; try lia.
    assert (2 ^ 45 * 2 ^ 1029 = U) as EU.
    { unfold U, unit_1074. rewrite <- Z.pow_add_r by lia. reflexivity. }
    assert (0 < 2 ^ 1029) as H1029 by (apply Z.pow_pos_nonneg; lia).
    rewrite !Z.mul_1_r.
    (* 255 R H 2^53 <= 255 (2^53+1) y U *)
    apply (Z.mul_le_mono_pos_r _ _ (2 ^ 53 * H)); [lia|].
    apply Z.le_trans with (255 * ((2 ^ 53 + 1) * (y * U))); [nia|].
    rewrite <- EU.
    apply Z.le_trans
      with (((k + 1) * H - 1) * (2 ^ 53 + 1) * (2 ^ 45 * 2 ^ 1029)); [nia|].
    replace (((k + 1) * 2 ^ 45 - 1) * 2 ^ 1029 * (2 ^ 53 * H))
      with (((k + 1) * 2 ^ 45 - 1) * (2 ^ 53 * H) * 2 ^ 1029) by ring.
    replace (((k + 1) * H - 1) * (2 ^ 53 + 1) * (2 ^ 45 * 2 ^ 1029))
      with (((k + 1) * H - 1) * (2 ^ 53 + 1) * 2 ^ 45 * 2 ^ 1029) by ring.
    apply Z.mul_le_mono_nonneg_r; [lia|]. nia. }
  (* lower bound through the float k *)
  assert (k * U <= RN (255 * R) 1) as Hlow.
  { assert (2 ^ 52 <= 2 ^ 1074) as H1074 by (apply Z.pow_le_mono_r; lia).
    destruct (Z.eq_dec k 0) as [->|Hk0].
    { destruct (RN_mantissa (255 * R) 1 ltac:(lia) HqB) as (Ht & _ & Hm).
      cbv zeta in Ht, Hm. unfold RN.
      assert (0 < 2 ^ (Zdigits2 (255 * R / 1) - 53)) by (apply Z.pow_pos_nonneg; lia).
      rewrite Z.mul_1_l in Hm. rewrite Z.mul_1_l. nia. }
    destruct (Z.eq_dec f 0) as [Hf0|Hf0].
    - (* 255 y / H is the integer k *)
      assert (R = RN (k * U) 255) as ER.
      { unfold R. rewrite <- (RN_scale (y * U) H 255) by lia.
        rewrite <- (RN_scale (k * U) 255 H); try lia.
        - f_equal; [nia|ring].
        - apply Z.div_le_lower_bound; nia. }
      assert (In k (List.map Z.of_nat (seq 1 254))) as Hin.
      { apply in_map_iff. exists (Z.to_nat k). split; [lia|]. apply in_seq. lia. }
      pose proof (proj1 (forallb_forall _ _) ramp_exact_levels k Hin) as Hk'.
      unfold ramp_exact_ok in Hk'. apply Z.leb_le in Hk'.
      assert (2 ^ 60 = 1152921504606846976) as P60 by reflexivity.
      assert (U = 2 ^ 60 * 2 ^ 1014) as EU.
      { unfold U, unit_1074. rewrite <- Z.pow_add_r by lia. reflexivity. }
      assert (0 < 2 ^ 1014) as H1014 by (apply Z.pow_pos_nonneg; lia).
      assert (2 ^ 52 <= k * 2 ^ 60 / 255) as Hq' by (apply Z.div_le_lower_bound; lia).
      destruct (RN_mantissa (k * 2 ^ 60) 255 ltac:(lia) Hq') as (Ht & _ & Hm).
      cbv zeta in Ht, Hm.
      assert (2 ^ 52 <= RN (k * 2 ^ 60) 255) as HR'.
      { unfold RN.
        assert (0 < 2 ^ (Zdigits2 (k * 2 ^ 60 / 255) - 53)) by (apply Z.pow_pos_nonneg; lia).
        nia. }
      rewrite ER, EU, Z.mul_assoc, RN_shift by lia.
      rewrite (Z.mul_assoc 255), RN_shift by (rewrite ?Z.div_1_r; lia).
      nia.
    - unfold U at 1. unfold unit_1074. rewrite <- (RN_exact k 1074) by nia.
      fold unit_1074. fold U.
      apply RN_le; try lia.
      + rewrite Z.div_1_r. nia.
      + rewrite !Z.mul_1_r.
        apply (Z.mul_le_mono_pos_r _ _ (2 ^ 53 * H)); [lia|].
        apply Z.le_trans with (255 * ((2 ^ 53 - 1) * (y * U))); [|nia].
        replace (k * U * (2 ^ 53 * H)) with (2 ^ 53 * (k * H) * U) by ring.
        replace (255 * ((2 ^ 53 - 1) * (y * U))) with ((2 ^ 53 - 1) * (255 * y) * U) by ring.
        apply Z.mul_le_mono_nonneg_r; [lia|]. nia. }
  assert (0 < U) as HUp by lia.
  assert (((k + 1) * 2 ^ 45 - 1) * 2 ^ 1029 < (k + 1) * U) as Hlt.
  { assert (2 ^ 45 * 2 ^ 1029 = U) as EU.
    { unfold U, unit_1074. rewrite <- Z.pow_add_r by lia. reflexivity. }
    assert (0 < 2 ^ 1029) as H1029 by (apply Z.pow_pos_nonneg; lia). nia. }
  symmetry. apply Z.div_unique with (RN (255 * R) 1 - k * U). 
  - left. lia.
  - ring.
Qed.

(** The channels of the ramp, as the code computes them. *)
Lemma float_zero_div (h : float) (lo hi : Z) :
  fnormal h lo hi -> (float_of_int 0 / h)%float = 0%float.
Proof.
  intros (m & e & E & _). apply Prim2SF_inj.
  rewrite FloatAxioms.div_spec, E. reflexivity.
Qed.

Lemma interpolate_ramp (H y : Z) :
  0 <= y < H -> H <= 2 ^ 44 ->
  interpolate 0 255 (float_of_int y / float_of_int H) = Some (255 * y / H).
Proof.
  intros Hy HH. assert (2 ^ 44 < 2 ^ 53) as P by reflexivity.
  destruct (float_of_int_normal H ltac:(lia)) as [NH VH].
  destruct (Z.eq_dec y 0) as [->|Hy0].
  { rewrite (float_zero_div _ _ _ NH). reflexivity. }
  destruct (float_of_int_normal y ltac:(lia)) as [Ny Vy].
  destruct (float_of_int_normal 255 ltac:(lia)) as [N255 V255].
  destruct (float_div_normal _ _ _ _ _ _ Ny NH) as [Nr Vr]; try lia.
  destruct (float_mul_normal _ _ _ _ _ _ N255 Nr) as [Np Vp]; try lia.
  unfold interpolate. change (255 - 0) with 255.
  rewrite (float_add_zero _ _ _ Np), (int_of_float_normal _ _ _ Np) by lia.
  f_equal. rewrite <- (ramp_value_floor H y) by lia.
  f_equal. rewrite Vp, Vr, V255, Vy, VH. unfold ramp_value, unit_1074.
  assert (0 < 2 ^ 1074) as HU by (apply Z.pow_pos_nonneg; lia).
  assert (2 ^ 53 * 2 ^ 53 < 2 ^ 1074) as HU' by apply unit_1074_pos.
  pose proof pow2_52. pose proof pow2_53.
  assert (2 ^ 52 <= y * 2 ^ 1074 / H) as Hq by (apply Z.div_le_lower_bound; nia).
  rewrite (RN_scale (y * 2 ^ 1074) H (2 ^ 1074)) by lia.
  destruct (RN_mantissa (y * 2 ^ 1074) H ltac:(lia) Hq) as (Ht & _ & Hm).
  cbv zeta in Ht, Hm.
  assert (2 ^ 52 <= RN (y * 2 ^ 1074) H) as HR.
  { unfold RN.
    assert (0 < 2 ^ (Zdigits2 (y * 2 ^ 1074 / H) - 53)) by (apply Z.pow_pos_nonneg; lia).
    nia. }
  replace (255 * 2 ^ 1074 * RN (y * 2 ^ 1074) H)
    with (255 * RN (y * 2 ^ 1074) H * 2 ^ 1074) by ring.
  replace (2 ^ 1074) with (1 * 2 ^ 1074) at 3 by ring.
  apply RN_scale; rewrite ?Z.div_1_r; lia.
Qed.

Lemma ramp_color (H y : Z) :
  0 <= y < H -> H <= 2 ^ 44 ->
  linear_color (0, 0, 0) (255, 255, 255) H y = Some (grey (255 * y / H)).
Proof.
  intros Hy HH. unfold linear_color, int_truediv.
  assert ((H =? 0) = false) as -> by (apply Z.eqb_neq; lia).
  cbn [mbind option_bind]. unfold interpolate_color.
  rewrite interpolate_ramp by assumption. reflexivity.
Qed.

End Binary64.

(** ** [create_gradient_background]: the linear gradient *)

Section LinearGradient.
Variables start_color end_color : rgb.

(** The rows of a list are painted one after the other; the size stays. *)
Lemma linear_rows_painted (rows : list Z) (img img' : image) :
  NoDup rows ->
  for_each (linear_row start_color end_color) rows img = Some img' ->
  img_width img' = img_width img
  /\ img_height img' = img_height img
  /\ (forall x y, In y rows -> (0 <= x <= img_width img)%Z ->
        exists c, linear_color start_color end_color (img_height img) y = Some c
                  /\ img_pixel img' x y = ink c)
  /\ (forall x y, ~ In y rows -> img_pixel img' x y = img_pixel img x y).
Proof.
  revert img. induction rows as [|y0 rows IH]; intros img Hnd Hrun.
  - injection Hrun as <-. repeat split; try reflexivity. intros x y [].
  - apply NoDup_cons in Hnd as [Hy0 Hnd]. cbn [for_each] in Hrun.
    unfold linear_row at 1 in Hrun.
    destruct (linear_color start_color end_color (img_height img) y0) as [c0|] eqn:Ec;
      [|discriminate].
    cbn [mbind option_bind] in Hrun.
    destruct (IH _ Hnd Hrun) as (Hw & Hh & Hin & Hout).
    cbn [img_width img_height draw_hline] in Hw, Hh, Hin.
    split; [exact Hw|]. split; [exact Hh|]. split.
    + intros x y [<-|Hy] Hx.
      * exists c0. split; [exact Ec|].
        rewrite (Hout x y0) by (rewrite list_elem_of_In in Hy0; exact Hy0).
        cbn [img_pixel draw_hline].
        rewrite Z.eqb_refl.
        assert ((0 <=? x)%Z = true) as -> by (apply Z.leb_le; lia).
        assert ((x <=? img_width img)%Z = true) as -> by (apply Z.leb_le; lia).
        reflexivity.
      * exact (Hin x y Hy Hx).
    + intros x y Hy. rewrite (Hout x y) by (intros Hin'; apply Hy; right; exact Hin').
      cbn [img_pixel draw_hline].
      assert ((y =? y0)%Z = false) as ->; [|reflexivity].
      apply Z.eqb_neq. intros ->. apply Hy. left. reflexivity.
Qed.

(** The loop ends normally when every row has a colour. *)
Lemma linear_rows_run (rows : list Z) (img : image) :
  (forall y, In y rows ->
     is_Some (linear_color start_color end_color (img_height img) y)) ->
  is_Some (for_each (linear_row start_color end_color) rows img).
Proof.
  revert img. induction rows as [|y0 rows IH]; intros img Hall; [eexists; reflexivity|].
  cbn [for_each]. unfold linear_row at 1.
  destruct (Hall y0 (or_introl eq_refl)) as [c0 ->]. cbn [mbind option_bind].
  apply IH. cbn [img_height draw_hline]. intros y Hy. apply Hall. right. exact Hy.
Qed.

(** Every style but ["radial"] is the linear gradient: scanline [y] is
    filled with the one colour [linear_color .. y]. *)
Lemma linear_gradient_scanlines (img img' : image) (style : str) :
  style <> lit "radial" ->
  create_gradient_background img start_color end_color style = Some img' ->
  forall x y, (0 <= x < img_width img)%Z -> (0 <= y < img_height img)%Z ->
    exists c, linear_color start_color end_color (img_height img) y = Some c
              /\ img_pixel img' x y = ink c.
Proof.
  intros Hstyle Hrun x y Hx Hy. unfold create_gradient_background in Hrun.
  destruct (decide (style = lit "radial")) as [E|_]; [contradiction|].
  destruct (linear_rows_painted _ _ _ (py_range_NoDup _) Hrun) as (_ & _ & Hin & _).
  apply Hin; [apply py_range_In; exact Hy|lia].
Qed.

Lemma linear_gradient_runs (img : image) (style : str) :
  style <> lit "radial" ->
  (forall y, (0 <= y < img_height img)%Z ->
     is_Some (linear_color start_color end_color (img_height img) y)) ->
  is_Some (create_gradient_background img start_color end_color style).
Proof.
  intros Hstyle Hall. unfold create_gradient_background.
  destruct (decide (style = lit "radial")) as [E|_]; [contradiction|].
  apply linear_rows_run. intros y Hy. apply Hall, py_range_In, Hy.
Qed.
End LinearGradient.

Lemma ink_grey (v : Z) : (0 <= v <= 255)%Z -> ink (grey v) = grey v.
Proof. intros Hv. unfold ink, grey, clip8. repeat f_equal; lia. Qed.

(** C4 (as amended).  In every style but ["radial"],
    [create_gradient_background] fills each scanline [y] of a canvas of
    height [H] with the single colour whose channels are
    [int(start + (end - start) * (y / H))].  For every height [H] from 1 to
    [2^44] and every width, the gradient from (0,0,0) to (255,255,255) is
    painted, and scanline [y] is the grey of level [floor (255 * y / H)]:
    scanline 0 is black, no channel decreases as [y] grows, no scanline
    goes beyond level 254, and the last scanline is (254,254,254) as soon
    as [H] is at least 255. *)
Theorem linear_gradient_black_to_white (width H : Z) :
  (1 <= H <= 2 ^ 44)%Z ->
  (forall (img img' : image) (start_color end_color : rgb) (style : str),
     style <> lit "radial" ->
     create_gradient_background img start_color end_color style = Some img' ->
     forall x y, (0 <= x < img_width img)%Z -> (0 <= y < img_height img)%Z ->
       exists c, linear_color start_color end_color (img_height img) y = Some c
                 /\ img_pixel img' x y = ink c)
  /\ exists img',
       create_gradient_background (image_new width H)
         (0, 0, 0)%Z (255, 255, 255)%Z "linear" = Some img'
       /\ (forall x y, (0 <= x < width)%Z -> (0 <= y < H)%Z ->
             img_pixel img' x y = grey (255 * y / H))
       /\ (forall x, (0 <= x < width)%Z -> img_pixel img' x 0 = (0, 0, 0)%Z)
       /\ (forall x, (0 <= x < width)%Z -> (255 <= H)%Z ->
             img_pixel img' x (H - 1) = (254, 254, 254)%Z)
       /\ (forall x y y', (0 <= x < width)%Z -> (0 <= y <= y')%Z -> (y' < H)%Z ->
             exists v v', img_pixel img' x y = grey v /\ img_pixel img' x y' = grey v'
                          /\ (0 <= v <= v')%Z /\ (v' <= 254)%Z).
Proof.
  intros HH. split.
  { intros img img' start_color end_color style. apply linear_gradient_scanlines. }
  destruct (linear_gradient_runs (0, 0, 0)%Z (255, 255, 255)%Z
              (image_new width H) "linear") as [img' Himg].
  { discriminate. }
  { intros y Hy. cbn [img_height image_new] in *.
    rewrite ramp_color by lia. eexists. reflexivity. }
  exists img'. split; [exact Himg|].
  assert (forall y, (0 <= y < H)%Z -> (0 <= 255 * y / H <= 254)%Z) as Hlevel.
  { intros y Hy. split; [apply Z.div_pos; lia|].
    assert (255 * y / H < 255)%Z; [apply Z.div_lt_upper_bound; lia|lia]. }
  assert (forall x y, (0 <= x < width)%Z -> (0 <= y < H)%Z ->
            img_pixel img' x y = grey (255 * y / H)) as Hpix.
  { intros x y Hx Hy.
    destruct (linear_gradient_scanlines _ _ _ _ "linear" ltac:(discriminate) Himg x y)
      as (c & Hc & Hp).
    - exact Hx.
    - exact Hy.
    - cbn [img_height image_new] in Hc.
      rewrite ramp_color in Hc by lia. injection Hc as <-.
      rewrite Hp. apply ink_grey. specialize (Hlevel y Hy). lia. }
  split; [exact Hpix|]. split; [|split].
  - intros x Hx. rewrite (Hpix x 0%Z Hx) by lia. reflexivity.
  - intros x Hx H255. rewrite (Hpix x (H - 1)%Z Hx) by lia.
    assert (255 * (H - 1) / H = 254)%Z as ->; [|reflexivity].
    symmetry. apply Z.div_unique with (H - 255)%Z; lia.
  - intros x y y' Hx Hy Hy'.
    exists (255 * y / H)%Z, (255 * y' / H)%Z.
    split; [apply Hpix; [exact Hx|lia]|]. split; [apply Hpix; [exact Hx|lia]|].
    split; [split|].
    + apply Hlevel. lia.
    + apply Z.div_le_mono; lia.
    + apply Hlevel. lia.
Qed.

Lemma linear_gradient_black_to_white_witness :
  exists img',
    create_gradient_background (image_new 1200 675) (0, 0, 0)%Z (255, 255, 255)%Z
      "linear" = Some img'
    /\ img_pixel img' 600 0 = (0, 0, 0)%Z
    /\ img_pixel img' 600 337 = (127, 127, 127)%Z
    /\ img_pixel img' 600 674 = (254, 254, 254)%Z.
Proof.
  assert (1 <= 675 <= 2 ^ 44)%Z as HH by (split; [lia|discriminate]).
  destruct (proj2 (linear_gradient_black_to_white 1200 675 HH))
    as (img' & Himg & Hpix & Hfirst & Hlast & _).
  exists img'. split; [exact Himg|].
  split; [apply (Hfirst 600%Z); lia|].
  split; [apply (Hpix 600%Z 337%Z); lia|apply (Hlast 600%Z); lia].
Defined.

(** C4 as stated fails on a short canvas: the last scanline is black on a
    canvas of height 1 and a middle grey on a canvas of height 2.  Nor do
    the channels grow strictly: on 675 rows the first three scanlines are
    all black. *)
Lemma linear_gradient_short_canvas_counterexample :
  (fun img => img_pixel img 0 0) <$>
    create_gradient_background (image_new 4 1) (0, 0, 0)%Z (255, 255, 255)%Z "linear"
  = Some (0, 0, 0)%Z
  /\ (fun img => img_pixel img 0 1) <$>
       create_gradient_background (image_new 4 2) (0, 0, 0)%Z (255, 255, 255)%Z "linear"
     = Some (127, 127, 127)%Z
  /\ linear_color (0, 0, 0)%Z (255, 255, 255)%Z 675 0 = Some (0, 0, 0)%Z
  /\ linear_color (0, 0, 0)%Z (255, 255, 255)%Z 675 2 = Some (0, 0, 0)%Z.
Proof. repeat split; vm_compute; reflexivity. Qed.
